(** * redis-export: a shallow embedding of the export pipeline

    The development follows [main.go]: the record types and the key
    resolver ([getValueByType], [processKey]) are pure functions over a
    data-source client, the JSON layer follows [encoding/json] for the
    types that flow through [RedisEntry], and [Export] with its goroutines
    (the scanner, the workers, the goroutine that closes the result
    channel, and the writer loop of [Export] itself) is a labelled
    transition system on an explicit state, one action per communication
    or select branch. *)

From Stdlib Require Import ZArith NArith List String Ascii Bool Lia.
From Stdlib Require Import DecimalString DecimalZ DecimalPos.
From stdpp Require Import base list strings gmap sorting.

Set Warnings "-register-all".

(** ** Go errors and results *)

(** An [error] is either a leaf error (one produced by a library call or by
    [fmt.Errorf] without [%w]) or an error that wraps a cause:
    [fmt.Errorf("<prefix>: %w", cause)]. *)
Inductive error : Type :=
| ErrNew (msg : string)
| ErrWrap (prefix : string) (cause : error).

(** [err.Error()] *)
Fixpoint Error (e : error) : string :=
  match e with
  | ErrNew msg => msg
  | ErrWrap prefix cause => prefix +:+ ": " +:+ Error cause
  end.

(** [errors.Unwrap] *)
Definition Unwrap (e : error) : option error :=
  match e with
  | ErrNew _ => None
  | ErrWrap _ cause => Some cause
  end.

(** A Go call returning [(T, error)]. *)
Inductive result (A : Type) : Type :=
| Ok (a : A)
| Err (e : error).
Arguments Ok {A} a.
Arguments Err {A} e.

Definition result_map {A B : Type} (f : A → B) (r : result A) : result B :=
  match r with
  | Ok a => Ok (f a)
  | Err e => Err e
  end.

(** All-or-first-error traversal of a list. *)
Fixpoint result_all {A : Type} (l : list (result A)) : result (list A) :=
  match l with
  | [] => Ok []
  | Ok a :: l' => result_map (cons a) (result_all l')
  | Err e :: _ => Err e
  end.

(** ** Strings as byte sequences *)

Definition nl : string := String "010"%char EmptyString.

(** The double quote, as a string. *)
Definition dquote : string := String "034"%char EmptyString.

(** [strings.Contains] as a proposition. *)
Definition Contains (s sub : string) : Prop :=
  ∃ pre post : string, s = pre +:+ sub +:+ post.

Fixpoint join (sep : string) (l : list string) : string :=
  match l with
  | [] => ""
  | [x] => x
  | x :: l' => x +:+ sep +:+ join sep l'
  end.

(** ** The data model of [main.go] *)

(** A [float64], as far as this program looks at one: it only ever
    passes scores on to the JSON encoder, which prints a finite number and
    rejects the others. A finite number is carried by the literal that
    [strconv] prints for it (the shortest one that reads back as the same
    number). *)
Inductive float64 : Type :=
| Finite (lit : string)
| PosInf
| NegInf
| NaN.

(** [redis.Z]; the client fills [Member] with a string. *)
Record RedisZ : Type := { Score : float64; Member : string }.

(** [redis.XMessage]; the client fills [Values] with strings. *)
Record XMessage : Type := { ID : string; Values : gmap string string }.

(** The dynamic contents of an [interface{}]: the six shapes that
    [getValueByType] stores in [RedisEntry.Value], and the shapes that
    [json.Unmarshal] stores there ([nil], [bool], [float64], [string],
    [[]interface{}], [map[string]interface{}]). Two values of different
    dynamic type are different values, as for [reflect.DeepEqual]. *)
Inductive value : Type :=
| VNil
| VString (s : string)
| VStrings (l : list string)
| VZs (l : list RedisZ)
| VStringMap (m : gmap string string)
| VMessages (l : list XMessage)
| VBool (b : bool)
| VFloat (f : float64)
| VArray (l : list value)
| VMap (m : gmap string value).

(** [type RedisEntry struct]; [TTL] is an [int64] and carries
    [json:"ttl,omitempty"]. *)
Record RedisEntry : Type := {
  Key : string;
  Typ : string;
  Value : value;
  TTL : Z
}.

(** [type Config struct], the fields [Export] reads. *)
Record Config : Type := {
  OutputFile : string;
  Workers : Z;
  BatchSize : Z
}.

(** ** The data source *)

(** What a [SCAN] iteration delivers: the keys for which [iter.Next]
    returned true, in order, and then [iter.Err()]. *)
Record ScanResult : Type := {
  scan_keys : list string;
  scan_err : option error
}.

(** The [*redis.Client] methods that the exporter calls, each with its
    [.Result()]. A [time.Duration] is an [int64] count of nanoseconds. The
    replies are those of the store for the key and do not depend on the
    context that is passed along. *)
Record Client : Type := {
  client_Type : string → result string;
  client_Get : string → result string;
  client_LRange : string → result (list string);
  client_SMembers : string → result (list string);
  client_ZRangeWithScores : string → result (list RedisZ);
  client_HGetAll : string → result (gmap string string);
  client_XRange : string → result (list XMessage);
  client_TTL : string → result Z;
  client_Scan : Z → ScanResult
}.

(** ** The key resolver *)

Definition getValueByType (c : Client) (key keyType : string) : result value :=
  if String.eqb keyType "string" then result_map VString (client_Get c key)
  else if String.eqb keyType "list" then result_map VStrings (client_LRange c key)
  else if String.eqb keyType "set" then result_map VStrings (client_SMembers c key)
  else if String.eqb keyType "zset" then result_map VZs (client_ZRangeWithScores c key)
  else if String.eqb keyType "hash" then result_map VStringMap (client_HGetAll c key)
  else if String.eqb keyType "stream" then result_map VMessages (client_XRange c key)
  else Err (ErrNew ("unsupported key type: " +:+ keyType)).

(** [time.Second] *)
Definition Second : Z := 1000000000.

(** [int64(ttl.Seconds())] for a positive [ttl]: the whole seconds of the
    duration. ([Seconds] goes through [float64]; the client reports a TTL
    in whole seconds, for which the conversion is exact, and below one
    second the fraction [ttl/1e9] is below 1 and truncates to 0. For a
    duration that is not a whole number of seconds the quotient is the
    result of the conversion as long as the sum of the seconds and the
    fraction does not round to the next whole number, which a [float64] can
    only do from 2^24 seconds on.) *)
Definition Seconds (ttl : Z) : Z := Z.quot ttl Second.

Definition processKey (c : Client) (key : string) : result RedisEntry :=
  match client_Type c key with
  | Err err => Err (ErrWrap ("failed to get type for key " +:+ key) err)
  | Ok keyType =>
    match getValueByType c key keyType with
    | Err err => Err (ErrWrap ("failed to get value for key " +:+ key) err)
    | Ok value =>
      match client_TTL c key with
      | Err err => Err (ErrWrap ("failed to get TTL for key " +:+ key) err)
      | Ok ttl =>
        Ok {| Key := key;
              Typ := keyType;
              Value := value;
              TTL := if (0 <? ttl)%Z then Seconds ttl else 0%Z |}
      end
    end
  end.

(** ** JSON, as [encoding/json] produces and reads it *)

(** The document tree. A string node holds the Go string that was
    marshalled (any bytes); a number node holds its literal. *)
Inductive json : Type :=
| JNull
| JBool (b : bool)
| JNumber (lit : string)
| JString (s : string)
| JArray (l : list json)
| JObject (fields : list (string * json)).

(** *** UTF-8, after [utf8.DecodeRuneInString] *)

Definition byte_in (lo hi : N) (b : ascii) : bool :=
  (lo <=? N_of_ascii b)%N && (N_of_ascii b <=? hi)%N.

Definition is_cont (b : ascii) : bool := byte_in 128 191 b.

(** The number of bytes of the well-formed multi-byte rune that [s]
    starts with, or 0 when [s] starts with no such rune (then
    [DecodeRuneInString] reports [RuneError] with size 1). The ranges are
    those of the [first] and [acceptRanges] tables. *)
Definition rune_len (s : string) : nat :=
  match s with
  | String b0 (String b1 r1) =>
    if byte_in 194 223 b0 then
      if is_cont b1 then 2%nat else 0%nat
    else if byte_in 224 239 b0 then
      match r1 with
      | String b2 _ =>
        let ok1 :=
          if byte_in 224 224 b0 then byte_in 160 191 b1
          else if byte_in 237 237 b0 then byte_in 128 159 b1
          else is_cont b1 in
        if ok1 && is_cont b2 then 3%nat else 0%nat
      | EmptyString => 0%nat
      end
    else if byte_in 240 244 b0 then
      match r1 with
      | String b2 (String b3 _) =>
        let ok1 :=
          if byte_in 240 240 b0 then byte_in 144 191 b1
          else if byte_in 244 244 b0 then byte_in 128 143 b1
          else is_cont b1 in
        if ok1 && is_cont b2 && is_cont b3 then 4%nat else 0%nat
      | _ => 0%nat
      end
    else 0%nat
  | _ => 0%nat
  end.

(** The encoding of U+FFFD, the replacement character. *)
Definition replacement : string :=
  String "239"%char (String "191"%char (String "189"%char EmptyString)).

(** [s] with every byte that is not part of a well-formed rune replaced
    by U+FFFD: the string that reading back a marshalled [s] gives.
    [pending] counts the continuation bytes of the rune being copied. *)
Fixpoint to_valid_utf8_from (pending : nat) (s : string) : string :=
  match s with
  | EmptyString => EmptyString
  | String b rest =>
    match pending with
    | S p => String b (to_valid_utf8_from p rest)
    | O =>
      if byte_in 0 127 b then String b (to_valid_utf8_from 0 rest)
      else
        match rune_len s with
        | O => replacement +:+ to_valid_utf8_from 0 rest
        | S n => String b (to_valid_utf8_from n rest)
        end
    end
  end.

Definition to_valid_utf8 (s : string) : string := to_valid_utf8_from 0 s.

Definition valid_utf8 (s : string) : bool := String.eqb (to_valid_utf8 s) s.

(** *** String literals, after [appendString] with [escapeHTML] on *)

Definition hex (n : N) : ascii :=
  match String.get (N.to_nat n) "0123456789abcdef" with
  | Some c => c
  | None => "0"%char
  end.

(** [htmlSafeSet]: the ASCII bytes that are copied as they are. *)
Definition htmlSafe (b : ascii) : bool :=
  byte_in 32 127 b
  && negb (Ascii.eqb b "034"%char) && negb (Ascii.eqb b "\"%char)
  && negb (Ascii.eqb b "<"%char) && negb (Ascii.eqb b ">"%char)
  && negb (Ascii.eqb b "&"%char).

(** One byte below [utf8.RuneSelf]. *)
Definition escape_byte (b : ascii) : string :=
  if htmlSafe b then String b EmptyString
  else if Ascii.eqb b "\"%char || Ascii.eqb b "034"%char then String "\"%char (String b EmptyString)
  else if Ascii.eqb b "008"%char then "\b"
  else if Ascii.eqb b "012"%char then "\f"
  else if Ascii.eqb b "010"%char then "\n"
  else if Ascii.eqb b "013"%char then "\r"
  else if Ascii.eqb b "009"%char then "\t"
  else "\u00" +:+ String (hex (N.shiftr (N_of_ascii b) 4))
                   (String (hex (N.land (N_of_ascii b) 15)) EmptyString).

(** U+2028 and U+2029 are E2 80 A8 and E2 80 A9. *)
Definition line_sep (s : string) : option ascii :=
  match s with
  | String b0 (String b1 (String b2 _)) =>
    if byte_in 226 226 b0 && byte_in 128 128 b1 && byte_in 168 169 b2
    then Some (hex (N.land (N_of_ascii b2) 15))
    else None
  | _ => None
  end.

(** The body of a string literal. [pending] counts the continuation bytes
    of the current rune; they are copied when [copy] is set and dropped
    when the rune was written as an escape. *)
Fixpoint escape_from (pending : nat) (copy : bool) (s : string) : string :=
  match s with
  | EmptyString => EmptyString
  | String b rest =>
    match pending with
    | S p =>
      if copy then String b (escape_from p copy rest) else escape_from p copy rest
    | O =>
      if byte_in 0 127 b then escape_byte b +:+ escape_from 0 true rest
      else
        match rune_len s with
        | O => "\ufffd" +:+ escape_from 0 true rest
        | S n =>
          match line_sep s with
          | Some h => "\u202" +:+ String h (escape_from n false rest)
          | None => String b (escape_from n true rest)
          end
        end
    end
  end.

Definition quote (s : string) : string :=
  dquote +:+ escape_from 0 true s +:+ dquote.

(** *** Printing a document (compact, as [Marshal] and [Encode] do) *)

Fixpoint render (j : json) : string :=
  match j with
  | JNull => "null"
  | JBool b => if b then "true" else "false"
  | JNumber lit => lit
  | JString s => quote s
  | JArray l => "[" +:+ join "," (map render l) +:+ "]"
  | JObject fields =>
    "{" +:+ join "," (map (λ '(k, v), quote k +:+ ":" +:+ render v) fields) +:+ "}"
  end.

(** *** Marshalling the values of this program *)

(** The bindings of a map in the order in which [encoding/json] writes
    them: sorted by key, byte-wise. *)
Definition sorted_bindings {A : Type} (m : gmap string A) : list (string * A) :=
  merge_sort (λ x y : string * A, bool_decide (String.leb x.1 y.1)) (map_to_list m).

Definition marshal_float64 (f : float64) : result json :=
  match f with
  | Finite lit => Ok (JNumber lit)
  | PosInf => Err (ErrNew "json: unsupported value: +Inf")
  | NegInf => Err (ErrNew "json: unsupported value: -Inf")
  | NaN => Err (ErrNew "json: unsupported value: NaN")
  end.

Definition marshal_RedisZ (z : RedisZ) : result json :=
  result_map (λ n, JObject [("Score", n); ("Member", JString (Member z))])
             (marshal_float64 (Score z)).

Definition marshal_string_map (m : gmap string string) : json :=
  JObject (map (λ '(k, x), (k, JString x)) (sorted_bindings m)).

Definition marshal_XMessage (x : XMessage) : json :=
  JObject [("ID", JString (ID x)); ("Values", marshal_string_map (Values x))].

Definition result_bindings {A : Type} (l : list (string * result A)) : result (list (string * A)) :=
  result_all (map (λ '(k, r), result_map (pair k) r) l).

Fixpoint marshal_value (v : value) : result json :=
  match v with
  | VNil => Ok JNull
  | VString s => Ok (JString s)
  | VStrings l => Ok (JArray (map JString l))
  | VZs l => result_map JArray (result_all (map marshal_RedisZ l))
  | VStringMap m => Ok (marshal_string_map m)
  | VMessages l => Ok (JArray (map marshal_XMessage l))
  | VBool b => Ok (JBool b)
  | VFloat f => marshal_float64 f
  | VArray l => result_map JArray (result_all (map marshal_value l))
  | VMap m => result_map JObject (result_bindings (sorted_bindings (marshal_value <$> m)))
  end.

(** [strconv.FormatInt(n, 10)] *)
Definition FormatInt (n : Z) : string := NilZero.string_of_int (Z.to_int n).

(** [json.Marshal] of a [RedisEntry]: the fields in declaration order,
    [ttl] left out when it is the zero value ([omitempty]). *)
Definition marshal_entry (e : RedisEntry) : result json :=
  result_map
    (λ v, JObject ([("key", JString (Key e)); ("type", JString (Typ e)); ("value", v)]
                   ++ (if (TTL e =? 0)%Z then [] else [("ttl", JNumber (FormatInt (TTL e)))])))
    (marshal_value (Value e)).

(** The bytes that [encoder.Encode(entry)] hands to the file in one
    write: the document and a newline. *)
Definition encode_bytes (e : RedisEntry) : result string :=
  result_map (λ j, render j +:+ nl) (marshal_entry e).

(** ** The environment of a run *)

(** Everything outside the process: the data source, whether
    [os.Create] succeeds, which writes to the file fail (the [n]-th write
    call of the run, counted from 0, fails with [write_err n]; a failed
    write leaves the file as it was), and what [ctx.Err()] is once the
    context is done. *)
Record Env : Type := {
  client : Client;
  create_err : option error;
  write_err : nat → option error;
  ctx_cause : error
}.

(** ** The writer side of [Export] *)

(** The open file together with the encoder on it and the two locals of
    [Export] that the writer loop updates. [enc_err] is the sticky error of
    a [json.Encoder]: after a failed write every later [Encode] returns
    it. *)
Record writer : Type := {
  file : string;
  writes : nat;
  enc_err : option error;
  firstEntry : bool;
  processed : Z
}.

(** [int64] arithmetic wraps. *)
Definition int64 (z : Z) : Z := ((z + 2 ^ 63) mod 2 ^ 64 - 2 ^ 63)%Z.

(** [file.Write] / [file.WriteString] *)
Definition Write (env : Env) (w : writer) (data : string) : writer * option error :=
  match write_err env (writes w) with
  | Some err =>
    ({| file := file w; writes := S (writes w); enc_err := enc_err w;
        firstEntry := firstEntry w; processed := processed w |}, Some err)
  | None =>
    ({| file := file w +:+ data; writes := S (writes w); enc_err := enc_err w;
        firstEntry := firstEntry w; processed := processed w |}, None)
  end.

(** [encoder.Encode(entry)] *)
Definition Encode (env : Env) (w : writer) (entry : RedisEntry) : writer * option error :=
  match enc_err w with
  | Some err => (w, Some err)
  | None =>
    match encode_bytes entry with
    | Err err => (w, Some err)
    | Ok b =>
      match Write env w b with
      | (w', Some err) =>
        ({| file := file w'; writes := writes w'; enc_err := Some err;
            firstEntry := firstEntry w'; processed := processed w' |}, Some err)
      | (w', None) => (w', None)
      end
    end
  end.

(** A log record of [logrus]: its level, its fields and its message. The
    informational records carry run times and rates; only their messages
    are kept. *)
Inductive logline : Type :=
| LogError (fields : list (string * string)) (msg : string)
| LogInfo (msg : string).

(** The file just after [os.Create], [json.NewEncoder(file)] and
    [file.WriteString("[\n")]; the result of [WriteString] is dropped. *)
Definition writer_open (env : Env) : writer :=
  fst (Write env {| file := ""; writes := 0; enc_err := None;
                    firstEntry := true; processed := 0 |} ("[" +:+ nl)).

(** The separator before an element: [",\n"] unless it is the first. *)
Definition write_separator (env : Env) (w : writer) : writer :=
  if firstEntry w
  then {| file := file w; writes := writes w; enc_err := enc_err w;
          firstEntry := false; processed := processed w |}
  else fst (Write env w ("," +:+ nl)).

(** The body of [case entry, ok := <-resultsChan] for [ok = true]. *)
Definition writer_entry (env : Env) (w : writer) (entry : RedisEntry) : writer * list logline :=
  match Encode env (write_separator env w) entry with
  | (w2, Some err) =>
    (w2, [LogError [("key", Key entry)] ("Error encoding entry: " +:+ Error err)])
  | (w2, None) =>
    ({| file := file w2; writes := writes w2; enc_err := enc_err w2;
        firstEntry := firstEntry w2; processed := int64 (processed w2 + 1) |}, [])
  end.

(** The body of the same case for [ok = false], up to [return nil]. *)
Definition writer_close (env : Env) (w : writer) : writer * list logline :=
  (fst (Write env w (nl +:+ "]")), [LogInfo "Export completed successfully"]).

(** ** The worker side *)

(** Where a worker goroutine is: waiting in [for key := range keysChan],
    blocked in [resultsChan <- entry], or returned. *)
Inductive wstate : Type :=
| WIdle
| WSend (entry : RedisEntry)
| WExit.

(** One iteration of the loop of [worker] for a received [key]: the
    [select] on [ctx.Done()] and, in its default branch, [processKey] and
    the error branch with [continue]. *)
Definition worker_key (env : Env) (done : bool) (key : string) : wstate * list logline :=
  if done then (WExit, [])
  else
    match processKey (client env) key with
    | Err err =>
      (WIdle, [LogError [("key", key)] ("Error processing key: " +:+ Error err)])
    | Ok entry => (WSend entry, [])
    end.

(** ** The pipeline state *)

(** [scanner] holds the keys that the iterator has still to deliver, and
    is [None] once the scanning goroutine has returned. A channel is its
    buffer and whether it is closed. [returned] is [None] while [Export]
    runs, then what it returned ([None] for [nil]). *)
Record state : Type := {
  ctx_done : bool;
  scanner : option (list string);
  keysChan : list string;
  keys_closed : bool;
  workers : list wstate;
  resultsChan : list RedisEntry;
  results_closed : bool;
  out : writer;
  returned : option (option error);
  log : list logline
}.

Definition cap (cfg : Config) : nat := Z.to_nat (BatchSize cfg).

(** How [Export] starts. *)
Inductive start : Type :=
| CreateFailed (err : error)
| MakeChanPanics
| Running (s : state).

(** [Export] down to its [for] loop: the file, the two channels, the
    workers (none for a non-positive count), the opening bracket, the
    scanner on a fresh iterator. *)
Definition Export_start (cfg : Config) (env : Env) : start :=
  match create_err env with
  | Some err => CreateFailed (ErrWrap "failed to create output file" err)
  | None =>
    if (BatchSize cfg <? 0)%Z then MakeChanPanics
    else
      Running
        {| ctx_done := false;
           scanner := Some (scan_keys (client_Scan (client env) (BatchSize cfg)));
           keysChan := [];
           keys_closed := false;
           workers := replicate (Z.to_nat (Workers cfg)) WIdle;
           resultsChan := [];
           results_closed := false;
           out := writer_open env;
           returned := None;
           log := [LogInfo "Starting Redis export"] |}
  end.

(** ** The transitions *)

(** One action per communication or [select] branch of the goroutines of
    [Export]; [i] is the index of a worker.
    - the scanner: [ScanSend] ([keysChan <- key] into the buffer),
      [ScanHandoff] (the same send met by a worker waiting in [range]),
      [ScanDone] ([case <-ctx.Done(): return]), [ScanEnd] ([iter.Next]
      returned false: the check of [iter.Err()] and the deferred close);
    - worker [i]: [WorkerRecv] (a key from the buffer, then the loop body),
      [WorkerClosed] (the [range] ends), [WorkerSend] ([resultsChan <- entry]
      into the buffer), [WorkerHandoff] (the same send met by the [select]
      of [Export]);
    - [CloseResults]: [wg.Wait()] returned, [close(resultsChan)];
    - the loop of [Export]: [MainRecv], [MainClosed], [MainTick],
      [MainDone] ([case <-ctx.Done(): return ctx.Err()]);
    - [Cancel]: the context becomes done (cancellation or deadline). *)
Inductive action : Type :=
| ScanSend
| ScanHandoff (i : nat)
| ScanDone
| ScanEnd
| WorkerRecv (i : nat)
| WorkerClosed (i : nat)
| WorkerSend (i : nat)
| WorkerHandoff (i : nat)
| CloseResults
| MainRecv
| MainClosed
| MainTick
| MainDone
| Cancel.

Definition all_exited (ws : list wstate) : bool :=
  forallb (λ w, match w with WExit => true | _ => false end) ws.

Section Step.
Variable cfg : Config.
Variable env : Env.

(** Worker [i], waiting in [range], is given [key]. *)
Definition deliver_key (i : nat) (key : string) (s : state)
    (scanner' : option (list string)) (keysChan' : list string) : state :=
  let '(w, l) := worker_key env (ctx_done s) key in
  {| ctx_done := ctx_done s;
     scanner := scanner';
     keysChan := keysChan';
     keys_closed := keys_closed s;
     workers := <[i := w]> (workers s);
     resultsChan := resultsChan s;
     results_closed := results_closed s;
     out := out s;
     returned := returned s;
     log := log s ++ l |}.

(** The loop of [Export] is given [entry]. *)
Definition deliver_entry (entry : RedisEntry) (s : state)
    (workers' : list wstate) (resultsChan' : list RedisEntry) : state :=
  let '(w, l) := writer_entry env (out s) entry in
  {| ctx_done := ctx_done s;
     scanner := scanner s;
     keysChan := keysChan s;
     keys_closed := keys_closed s;
     workers := workers';
     resultsChan := resultsChan';
     results_closed := results_closed s;
     out := w;
     returned := returned s;
     log := log s ++ l |}.

Definition step (a : action) (s : state) : option state :=
  match a with
  | ScanSend =>
    match scanner s with
    | Some (key :: rest) =>
      if bool_decide (length (keysChan s) < cap cfg)%nat then
        Some {| ctx_done := ctx_done s;
                scanner := Some rest;
                keysChan := keysChan s ++ [key];
                keys_closed := keys_closed s;
                workers := workers s;
                resultsChan := resultsChan s;
                results_closed := results_closed s;
                out := out s;
                returned := returned s;
                log := log s |}
      else None
    | _ => None
    end
  | ScanHandoff i =>
    match scanner s, keysChan s, workers s !! i with
    | Some (key :: rest), [], Some WIdle => Some (deliver_key i key s (Some rest) [])
    | _, _, _ => None
    end
  | ScanDone =>
    match scanner s with
    | Some (_ :: _) =>
      if ctx_done s then
        Some {| ctx_done := ctx_done s;
                scanner := None;
                keysChan := keysChan s;
                keys_closed := true;
                workers := workers s;
                resultsChan := resultsChan s;
                results_closed := results_closed s;
                out := out s;
                returned := returned s;
                log := log s |}
      else None
    | _ => None
    end
  | ScanEnd =>
    match scanner s with
    | Some [] =>
      Some {| ctx_done := ctx_done s;
              scanner := None;
              keysChan := keysChan s;
              keys_closed := true;
              workers := workers s;
              resultsChan := resultsChan s;
              results_closed := results_closed s;
              out := out s;
              returned := returned s;
              log := log s ++
                match scan_err (client_Scan (client env) (BatchSize cfg)) with
                | Some err => [LogError [] ("Error during key scanning: " +:+ Error err)]
                | None => []
                end |}
    | _ => None
    end
  | WorkerRecv i =>
    match keysChan s, workers s !! i with
    | key :: rest, Some WIdle => Some (deliver_key i key s (scanner s) rest)
    | _, _ => None
    end
  | WorkerClosed i =>
    match keysChan s, workers s !! i with
    | [], Some WIdle =>
      if keys_closed s then
        Some {| ctx_done := ctx_done s;
                scanner := scanner s;
                keysChan := keysChan s;
                keys_closed := keys_closed s;
                workers := <[i := WExit]> (workers s);
                resultsChan := resultsChan s;
                results_closed := results_closed s;
                out := out s;
                returned := returned s;
                log := log s |}
      else None
    | _, _ => None
    end
  | WorkerSend i =>
    match workers s !! i with
    | Some (WSend entry) =>
      if bool_decide (length (resultsChan s) < cap cfg)%nat then
        Some {| ctx_done := ctx_done s;
                scanner := scanner s;
                keysChan := keysChan s;
                keys_closed := keys_closed s;
                workers := <[i := WIdle]> (workers s);
                resultsChan := resultsChan s ++ [entry];
                results_closed := results_closed s;
                out := out s;
                returned := returned s;
                log := log s |}
      else None
    | _ => None
    end
  | WorkerHandoff i =>
    match workers s !! i, resultsChan s, returned s with
    | Some (WSend entry), [], None =>
      Some (deliver_entry entry s (<[i := WIdle]> (workers s)) [])
    | _, _, _ => None
    end
  | CloseResults =>
    if all_exited (workers s) && negb (results_closed s) then
      Some {| ctx_done := ctx_done s;
              scanner := scanner s;
              keysChan := keysChan s;
              keys_closed := keys_closed s;
              workers := workers s;
              resultsChan := resultsChan s;
              results_closed := true;
              out := out s;
              returned := returned s;
              log := log s |}
    else None
  | MainRecv =>
    match resultsChan s, returned s with
    | entry :: rest, None => Some (deliver_entry entry s (workers s) rest)
    | _, _ => None
    end
  | MainClosed =>
    match resultsChan s, returned s with
    | [], None =>
      if results_closed s then
        let '(w, l) := writer_close env (out s) in
        Some {| ctx_done := ctx_done s;
                scanner := scanner s;
                keysChan := keysChan s;
                keys_closed := keys_closed s;
                workers := workers s;
                resultsChan := resultsChan s;
                results_closed := results_closed s;
                out := w;
                returned := Some None;
                log := log s ++ l |}
      else None
    | _, _ => None
    end
  | MainTick =>
    match returned s with
    | None =>
      Some {| ctx_done := ctx_done s;
              scanner := scanner s;
              keysChan := keysChan s;
              keys_closed := keys_closed s;
              workers := workers s;
              resultsChan := resultsChan s;
              results_closed := results_closed s;
              out := out s;
              returned := returned s;
              log := log s ++ [LogInfo "Export progress"] |}
    | Some _ => None
    end
  | MainDone =>
    match returned s with
    | None =>
      if ctx_done s then
        Some {| ctx_done := ctx_done s;
                scanner := scanner s;
                keysChan := keysChan s;
                keys_closed := keys_closed s;
                workers := workers s;
                resultsChan := resultsChan s;
                results_closed := results_closed s;
                out := out s;
                returned := Some (Some (ctx_cause env));
                log := log s |}
      else None
    | Some _ => None
    end
  | Cancel =>
    Some {| ctx_done := true;
            scanner := scanner s;
            keysChan := keysChan s;
            keys_closed := keys_closed s;
            workers := workers s;
            resultsChan := resultsChan s;
            results_closed := results_closed s;
            out := out s;
            returned := returned s;
            log := log s |}
  end.

(** A schedule, run from [s]. *)
Fixpoint exec (tr : list action) (s : state) : option state :=
  match tr with
  | [] => Some s
  | a :: tr' =>
    match step a s with
    | Some s' => exec tr' s'
    | None => None
    end
  end.

(** The states that a run of [Export] passes through. *)
Definition reachable (s : state) : Prop :=
  ∃ s0 tr, Export_start cfg env = Running s0 ∧ exec tr s0 = Some s.

End Step.


(** ** Reading a document back *)

(** [json.Unmarshal] into an [interface{}]. A string comes back as valid
    UTF-8; of two bindings of one key in an object the later one stays. *)
Fixpoint decode_any (j : json) : value :=
  match j with
  | JNull => VNil
  | JBool b => VBool b
  | JNumber lit => VFloat (Finite lit)
  | JString s => VString (to_valid_utf8 s)
  | JArray l => VArray (map decode_any l)
  | JObject fields =>
    VMap (list_to_map (reverse (map (λ '(k, v), (to_valid_utf8 k, decode_any v)) fields)))
  end.

Definition MinInt64 : Z := (- 2 ^ 63)%Z.
Definition MaxInt64 : Z := (2 ^ 63 - 1)%Z.

(** [strconv.ParseInt(lit, 10, 64)] on a number literal. *)
Definition ParseInt (lit : string) : option Z :=
  match NilZero.int_of_string lit with
  | Some d =>
    let z := Z.of_int d in
    if (MinInt64 <=? z)%Z && (z <=? MaxInt64)%Z then Some z else None
  | None => None
  end.

Definition set_Key (e : RedisEntry) (s : string) : RedisEntry :=
  {| Key := s; Typ := Typ e; Value := Value e; TTL := TTL e |}.
Definition set_Typ (e : RedisEntry) (s : string) : RedisEntry :=
  {| Key := Key e; Typ := s; Value := Value e; TTL := TTL e |}.
Definition set_Value (e : RedisEntry) (v : value) : RedisEntry :=
  {| Key := Key e; Typ := Typ e; Value := v; TTL := TTL e |}.
Definition set_TTL (e : RedisEntry) (n : Z) : RedisEntry :=
  {| Key := Key e; Typ := Typ e; Value := Value e; TTL := n |}.

(** One binding of the object, stored into the struct field with that JSON
    name (bindings of other names are skipped; names are compared
    exactly, which is all that the documents of [marshal_entry] need). *)
Definition unmarshal_field (r : result RedisEntry) (kv : string * json) : result RedisEntry :=
  match r with
  | Err err => Err err
  | Ok e =>
    let '(k, v) := kv in
    if String.eqb k "key" then
      match v with
      | JString s => Ok (set_Key e (to_valid_utf8 s))
      | JNull => Ok e
      | _ => Err (ErrNew "json: cannot unmarshal into Go struct field RedisEntry.key of type string")
      end
    else if String.eqb k "type" then
      match v with
      | JString s => Ok (set_Typ e (to_valid_utf8 s))
      | JNull => Ok e
      | _ => Err (ErrNew "json: cannot unmarshal into Go struct field RedisEntry.type of type string")
      end
    else if String.eqb k "value" then Ok (set_Value e (decode_any v))
    else if String.eqb k "ttl" then
      match v with
      | JNumber lit =>
        match ParseInt lit with
        | Some n => Ok (set_TTL e n)
        | None => Err (ErrNew "json: cannot unmarshal number into Go struct field RedisEntry.ttl of type int64")
        end
      | JNull => Ok e
      | _ => Err (ErrNew "json: cannot unmarshal into Go struct field RedisEntry.ttl of type int64")
      end
    else Ok e
  end.

(** [json.Unmarshal(data, &decoded)] for a zero [decoded RedisEntry],
    on the document that [data] holds. *)
Definition unmarshal_entry (j : json) : result RedisEntry :=
  match j with
  | JObject fields =>
    fold_left unmarshal_field fields
              (Ok {| Key := ""; Typ := ""; Value := VNil; TTL := 0 |})
  | JNull => Ok {| Key := ""; Typ := ""; Value := VNil; TTL := 0 |}
  | _ => Err (ErrNew "json: cannot unmarshal into Go value of type main.RedisEntry")
  end.

(** Encoding, then decoding. *)
Definition roundtrip (e : RedisEntry) : result RedisEntry :=
  match marshal_entry e with
  | Ok j => unmarshal_entry j
  | Err err => Err err
  end.

(** ** JSON text *)

Definition is_space (c : ascii) : bool :=
  Ascii.eqb c " "%char || Ascii.eqb c "009"%char
  || Ascii.eqb c "010"%char || Ascii.eqb c "013"%char.

(** The text without its insignificant whitespace: the whitespace outside
    string literals. [in_str] says that the position is inside a literal,
    [esc] that it follows a backslash there. *)
Fixpoint compact_from (in_str esc : bool) (s : string) : string :=
  match s with
  | EmptyString => EmptyString
  | String c rest =>
    if in_str then
      String c
        (if esc then compact_from true false rest
         else if Ascii.eqb c "\"%char then compact_from true true rest
         else if Ascii.eqb c "034"%char then compact_from false false rest
         else compact_from true false rest)
    else if is_space c then compact_from false false rest
    else String c (compact_from (Ascii.eqb c "034"%char) false rest)
  end.

Definition compact (s : string) : string := compact_from false false s.

(** The nesting depth at the end of the text, counting the brackets and
    braces outside string literals from depth [d]; [None] when a closer
    has no opener. *)
Fixpoint depth_from (in_str esc : bool) (d : nat) (s : string) : option nat :=
  match s with
  | EmptyString => if in_str then None else Some d
  | String c rest =>
    if in_str then
      if esc then depth_from true false d rest
      else if Ascii.eqb c "\"%char then depth_from true true d rest
      else if Ascii.eqb c "034"%char then depth_from false false d rest
      else depth_from true false d rest
    else if Ascii.eqb c "034"%char then depth_from true false d rest
    else if Ascii.eqb c "["%char || Ascii.eqb c "{"%char then depth_from false false (S d) rest
    else if Ascii.eqb c "]"%char || Ascii.eqb c "}"%char then
      match d with
      | O => None
      | S d' => depth_from false false d' rest
      end
    else depth_from false false d rest
  end.

(** Balanced brackets: every opener is closed and no closer is loose. *)
Definition balanced (s : string) : bool :=
  match depth_from false false 0 s with
  | Some O => true
  | _ => false
  end.

(** ** Notions for the statements about runs *)

(** The writer after it has been given the entries [l], in order. *)
Definition writer_run (env : Env) (w : writer) (l : list RedisEntry) : writer :=
  fold_left (λ w entry, fst (writer_entry env w entry)) l w.

(** The record of a key, when [processKey] produces one. *)
Definition resolve (c : Client) (key : string) : option RedisEntry :=
  match processKey c key with
  | Ok entry => Some entry
  | Err _ => None
  end.

Definition resolved (c : Client) (keys : list string) : list RedisEntry :=
  omap (resolve c) keys.

(** The entries that workers hold while blocked in their send. *)
Definition sending (ws : list wstate) : list RedisEntry :=
  omap (λ w, match w with WSend entry => Some entry | _ => None end) ws.

(** The records still on their way to the writer: those in the result
    channel, those held by workers, and those of the keys that are still
    in the key channel or with the scanner. *)
Definition in_flight (env : Env) (s : state) : list RedisEntry :=
  resultsChan s ++ sending (workers s)
  ++ resolved (client env) (keysChan s)
  ++ resolved (client env) (default [] (scanner s)).

(** The state [Completed] of the coordinator: [Export] has returned
    [nil], no cancellation was received, the key source is exhausted and
    the key queue is drained. *)
Definition Completed (s : state) : Prop :=
  returned s = Some None ∧ ctx_done s = false
  ∧ scanner s = None ∧ keysChan s = [].

(** The sink takes every write. *)
Definition reliable_sink (env : Env) : Prop := ∀ n, write_err env n = None.

(** The reply of [TTL] for a key without expiry. *)
Definition NoExpiry : Z := (-1)%Z.

(** A measure that every transition other than [MainTick], [MainDone],
    [ScanDone] and [Cancel] decreases. *)
Definition wweight (w : wstate) : nat :=
  match w with
  | WIdle => 1
  | WSend _ => 3
  | WExit => 0
  end.

Definition measure (s : state) : nat :=
  match scanner s with
  | Some keys => 5 * length keys + 1
  | None => 0
  end
  + 4 * length (keysChan s)
  + sum_list (map wweight (workers s))
  + length (resultsChan s)
  + (if results_closed s then 0 else 1)
  + (match returned s with Some _ => 0 | None => 1 end).

(** The actions of the normal course of a run: everything but the
    ticker and what a done context enables. *)
Definition normal (a : action) : bool :=
  match a with
  | MainTick | MainDone | ScanDone | Cancel => false
  | _ => true
  end.

(** The writer of a state in which the loop of [Export] has been given
    the entries [written], and then returned [ret] or still runs. *)
Definition writer_after (env : Env) (ret : option (option error))
    (written : list RedisEntry) : writer :=
  let w := writer_run env (writer_open env) written in
  match ret with
  | Some None => fst (writer_close env w)
  | _ => w
  end.

(** The keys that the source enumerates in this run. *)
Definition source_keys (cfg : Config) (env : Env) : list string :=
  scan_keys (client_Scan (client env) (BatchSize cfg)).

(** Whether an object has a binding of the given name. *)
Definition has_field (name : string) (j : json) : bool :=
  match j with
  | JObject fields => existsb (λ kv, String.eqb kv.1 name) fields
  | _ => false
  end.

(** The client [c] with another reply to [TTL]. *)
Definition with_TTL (c : Client) (ttl : string → result Z) : Client :=
  {| client_Type := client_Type c;
     client_Get := client_Get c;
     client_LRange := client_LRange c;
     client_SMembers := client_SMembers c;
     client_ZRangeWithScores := client_ZRangeWithScores c;
     client_HGetAll := client_HGetAll c;
     client_XRange := client_XRange c;
     client_TTL := ttl;
     client_Scan := client_Scan c |}.

(** What a reliable sink holds between the brackets once the writer was
    given the entries [l]: each element that encodes, as one line, and a
    separator before every entry but the first. *)
Fixpoint array_body (first : bool) (l : list RedisEntry) : string :=
  match l with
  | [] => ""
  | entry :: l' =>
    (if first then "" else "," +:+ nl)
    +:+ match encode_bytes entry with
        | Ok b => b
        | Err _ => ""
        end
    +:+ array_body false l'
  end.

(** The six types that [getValueByType] knows. *)
Definition supported_types : list string :=
  ["string"; "list"; "set"; "zset"; "hash"; "stream"].

(** A key-scoped failure for [key], with its cause: the fetch of the
    type fails, the fetch of the value fails, the type is not supported, or
    the fetch of the TTL fails. *)
Definition fetch_fails (c : Client) (key : string) (cause : error) : Prop :=
  client_Type c key = Err cause
  ∨ (∃ keyType, client_Type c key = Ok keyType
                ∧ getValueByType c key keyType = Err cause)
  ∨ (∃ keyType, client_Type c key = Ok keyType
                ∧ (keyType ∉ supported_types)
                ∧ cause = ErrNew ("unsupported key type: " +:+ keyType))
  ∨ (∃ keyType value, client_Type c key = Ok keyType
                      ∧ getValueByType c key keyType = Ok value
                      ∧ client_TTL c key = Err cause).

(** ** A sample source *)

(** A store with a string key, a sorted set with an infinite score, a
    key of a module type, and a key whose [TYPE] call fails; [scan] is
    what its enumeration delivers. *)
Definition sample_client (scan : ScanResult) : Client :=
  {| client_Type := λ key,
       if String.eqb key "test:key" then Ok "string"
       else if String.eqb key "scores" then Ok "zset"
       else if String.eqb key "doc" then Ok "ReJSON-RL"
       else if String.eqb key "gone" then Err (ErrNew "i/o timeout")
       else Ok "none";
     client_Get := λ key,
       if String.eqb key "test:key" then Ok "test value"
       else Err (ErrNew "redis: nil");
     client_LRange := λ _, Ok [];
     client_SMembers := λ _, Ok [];
     client_ZRangeWithScores := λ key,
       if String.eqb key "scores" then Ok [{| Score := PosInf; Member := "top" |}]
       else Ok [];
     client_HGetAll := λ _, Ok ∅;
     client_XRange := λ _, Ok [];
     client_TTL := λ _, Ok NoExpiry;
     client_Scan := λ _, scan |}.

Definition sample_env (scan : ScanResult) : Env :=
  {| client := sample_client scan;
     create_err := None;
     write_err := λ _, None;
     ctx_cause := ErrNew "context canceled" |}.

Definition sample_cfg : Config :=
  {| OutputFile := "redis_export.json"; Workers := 1; BatchSize := 10 |}.

(** The run of a schedule from the start of [Export]. *)
Definition run (cfg : Config) (env : Env) (tr : list action) : option state :=
  match Export_start cfg env with
  | Running s0 => exec cfg env tr s0
  | _ => None
  end.

(** A string literal of JSON text for a string that needs no escape. *)
Definition lit (s : string) : string := dquote +:+ s +:+ dquote.

(** The element of the scenario with one string key:
    [{"key":"test:key","type":"string","value":"test value"}]. *)
Definition scenario_element : string :=
  "{" +:+ lit "key" +:+ ":" +:+ lit "test:key" +:+ ","
  +:+ lit "type" +:+ ":" +:+ lit "string" +:+ ","
  +:+ lit "value" +:+ ":" +:+ lit "test value" +:+ "}".

(** ** Notions for further properties of the code *)

(** Whether [v] has the dynamic type that [getValueByType] stores for a
    key of type [keyType]. *)
Definition has_shape (keyType : string) (v : value) : bool :=
  match v with
  | VString _ => String.eqb keyType "string"
  | VStrings _ => String.eqb keyType "list" || String.eqb keyType "set"
  | VZs _ => String.eqb keyType "zset"
  | VStringMap _ => String.eqb keyType "hash"
  | VMessages _ => String.eqb keyType "stream"
  | _ => false
  end.

Definition finite (f : float64) : bool :=
  match f with
  | Finite _ => true
  | _ => false
  end.

(** The scores of a sorted-set value are all finite (and any other value
    has no score). *)
Definition finite_scores (v : value) : bool :=
  match v with
  | VZs l => forallb (λ z, finite (Score z)) l
  | _ => true
  end.

(** The lines of the elements that encode, for the entries [l]. *)
Definition element_lines (l : list RedisEntry) : list string :=
  omap (λ entry, match encode_bytes entry with
                 | Ok b => Some b
                 | Err _ => None
                 end) l.

(** The log record of a worker for a key that [processKey] fails on. *)
Definition key_error (c : Client) (key : string) : option logline :=
  match processKey c key with
  | Err err => Some (LogError [("key", key)] ("Error processing key: " +:+ Error err))
  | Ok _ => None
  end.

(** [strings.HasPrefix] *)
Fixpoint HasPrefix (s prefix : string) {struct prefix} : bool :=
  match prefix with
  | EmptyString => true
  | String a prefix' =>
    match s with
    | String b s' => Ascii.eqb a b && HasPrefix s' prefix'
    | EmptyString => false
    end
  end.

(** The log records of that kind. *)
Definition is_key_error (l : logline) : bool :=
  match l with
  | LogError _ msg => HasPrefix msg "Error processing key: "
  | LogInfo _ => false
  end.

(** The log records of workers about keys, in the order of the log. *)
Definition logged_key_errors (l : list logline) : list logline :=
  omap (λ r, if is_key_error r then Some r else None) l.


(** What the loop of [Export] leaves in the file for an entry, after the
    separator: the line of the entry, or nothing when it does not encode. *)
Definition slot (entry : RedisEntry) : string :=
  match encode_bytes entry with
  | Ok b => b
  | Err _ => ""
  end.

(** The schedules of a run under a context that is never done, as is the
    [context.Background()] that the root command passes to [Export]. *)
Definition background (tr : list action) : bool :=
  forallb (λ a, match a with Cancel => false | _ => true end) tr.

(** What of a state the goroutines of [Export] go by: everything but
    the file and the log. *)
Definition control (s : state) :=
  (ctx_done s, scanner s, keysChan s, keys_closed s, workers s,
   resultsChan s, results_closed s, returned s).

(** The environment [env] with another sink. *)
Definition with_sink (env : Env) (failing : nat → option error) : Env :=
  {| client := client env;
     create_err := create_err env;
     write_err := failing;
     ctx_cause := ctx_cause env |}.

(** The sink takes no write at all. *)
Definition broken_sink (env : Env) : Prop := ∀ n, write_err env n ≠ None.
(** ** Runs *)

Section Runs.
Variable cfg : Config.
Variable env : Env.

Lemma exec_app tr1 tr2 s :
  exec cfg env (tr1 ++ tr2) s = exec cfg env tr1 s ≫= exec cfg env tr2.
Proof.
  revert s. induction tr1 as [|a tr1 IH]; intros s; simpl; [done|].
  destruct (step cfg env a s); simpl; [apply IH|done].
Qed.

Lemma reachable_start s0 : Export_start cfg env = Running s0 → reachable cfg env s0.
Proof. intros H. exists s0, []. done. Qed.

Lemma reachable_step a s s' :
  reachable cfg env s → step cfg env a s = Some s' → reachable cfg env s'.
Proof.
  intros (s0 & tr & H0 & Htr) Hs. exists s0, (tr ++ [a]). split; [done|].
  rewrite exec_app, Htr. simpl. by rewrite Hs.
Qed.

(** Induction over the runs: a property of the start that every
    transition preserves holds of every reachable state. *)
Lemma reachable_ind (P : state → Prop) :
  (∀ s0, Export_start cfg env = Running s0 → P s0) →
  (∀ a s s', reachable cfg env s → P s → step cfg env a s = Some s' → P s') →
  ∀ s, reachable cfg env s → P s.
Proof.
  intros Hstart Hstep s (s0 & tr & H0 & Htr).
  assert (Hgen : ∀ tr s1, reachable cfg env s1 → P s1 →
                          exec cfg env tr s1 = Some s → P s).
  { clear tr Htr. induction tr as [|a tr IH]; intros s1 Hr HP H; simpl in H.
    - by simplify_eq.
    - destruct (step cfg env a s1) as [s2|] eqn:Hs; [|done].
      eapply (IH s2); [by eapply reachable_step| by eapply Hstep |done]. }
  eapply Hgen; [by apply reachable_start | by apply Hstart | done].
Qed.

Lemma start_inv s0 :
  Export_start cfg env = Running s0 →
  s0 = {| ctx_done := false;
          scanner := Some (scan_keys (client_Scan (client env) (BatchSize cfg)));
          keysChan := [];
          keys_closed := false;
          workers := replicate (Z.to_nat (Workers cfg)) WIdle;
          resultsChan := [];
          results_closed := false;
          out := writer_open env;
          returned := None;
          log := [LogInfo "Starting Redis export"] |}.
Proof. unfold Export_start. repeat case_match; congruence. Qed.

End Runs.

(** Case analysis on a transition [H : step cfg env a s = Some s']. *)
Ltac step_inv H :=
  match type of H with
  | step _ _ ?a _ = Some _ =>
    destruct a; simpl in H; unfold deliver_key, deliver_entry, writer_close in H;
    repeat case_match; simplify_eq; simpl in *
  end.

(** A run exists only for a batch size that [make] accepts. *)
Lemma reachable_batch_size cfg env s : reachable cfg env s → (0 ≤ BatchSize cfg)%Z.
Proof.
  intros (s0 & tr & H0 & _). unfold Export_start in H0.
  destruct (create_err env); [done|].
  destruct (Z.ltb_spec (BatchSize cfg) 0); [done|lia].
Qed.

Lemma run_reachable cfg env tr s : run cfg env tr = Some s → reachable cfg env s.
Proof.
  unfold run. destruct (Export_start cfg env) as [| |s0] eqn:H0; try done.
  intros H. by exists s0, tr.
Qed.

(** ** Strings *)

Lemma append_assoc (s1 s2 s3 : string) : (s1 +:+ s2) +:+ s3 = s1 +:+ s2 +:+ s3.
Proof.
  induction s1 as [|c s1 IH]; [done|].
  change (String c ((s1 +:+ s2) +:+ s3) = String c (s1 +:+ s2 +:+ s3)). by f_equal.
Qed.

Lemma append_nil_r (s : string) : s +:+ "" = s.
Proof.
  induction s as [|c s IH]; [done|].
  change (String c (s +:+ "") = String c s). by f_equal.
Qed.

Lemma Contains_mid (pre sub post : string) : Contains (pre +:+ sub +:+ post) sub.
Proof. by exists pre, post. Qed.

Lemma Contains_end (pre sub : string) : Contains (pre +:+ sub) sub.
Proof. exists pre, "". by rewrite append_nil_r. Qed.

(** ** The key resolver *)

Lemma unsupported_getValueByType c key keyType :
  keyType ∉ supported_types →
  getValueByType c key keyType = Err (ErrNew ("unsupported key type: " +:+ keyType)).
Proof.
  intros Hn. unfold getValueByType.
  repeat match goal with
         | |- context [String.eqb keyType ?t] =>
           destruct (String.eqb_spec keyType t) as [->|_];
           [exfalso; apply Hn; unfold supported_types; set_solver|]
         end.
  done.
Qed.

(** A key-scoped failure makes [processKey] return an error that wraps
    the cause under a message that names the key. *)
Lemma fetch_fails_processKey c key cause :
  fetch_fails c key cause →
  ∃ what, processKey c key = Err (ErrWrap (what +:+ key) cause).
Proof.
  unfold processKey.
  intros [H|[(t & Ht & H)|[(t & Ht & Hn & ->)|(t & v & Ht & Hv & H)]]].
  - rewrite H. eauto.
  - rewrite Ht, H. eauto.
  - rewrite Ht, unsupported_getValueByType by done. eauto.
  - rewrite Ht, Hv, H. eauto.
Qed.

Lemma wrapped_message what key cause :
  Contains (Error (ErrWrap (what +:+ key) cause)) key
  ∧ Contains (Error (ErrWrap (what +:+ key) cause)) (Error cause).
Proof.
  simpl. split.
  - rewrite append_assoc. apply Contains_mid.
  - rewrite <- (append_assoc _ ": "). apply Contains_end.
Qed.

Lemma processKey_Key c key entry : processKey c key = Ok entry → Key entry = key.
Proof. unfold processKey. repeat case_match; intros; by simplify_eq. Qed.

(** ** Workers in the pool *)

Lemma insert_split {A : Type} (l : list A) (i : nat) (x y : A) :
  l !! i = Some x → ∃ l1 l2, l = l1 ++ x :: l2 ∧ <[i := y]> l = l1 ++ y :: l2.
Proof.
  intros H. exists (take i l), (drop (S i) l). split.
  - by rewrite take_drop_middle.
  - apply insert_take_drop. by eapply lookup_lt_Some.
Qed.

Lemma all_exited_app ws1 ws2 :
  all_exited (ws1 ++ ws2) = all_exited ws1 && all_exited ws2.
Proof. apply forallb_app. Qed.

Lemma all_exited_lookup ws i w :
  all_exited ws = true → ws !! i = Some w → w = WExit.
Proof.
  intros Hall Hi. destruct (insert_split ws i w w Hi) as (l1 & l2 & -> & _).
  rewrite all_exited_app in Hall. simpl in Hall.
  destruct w; simpl in Hall; try done;
    by rewrite andb_false_r in Hall.
Qed.

Lemma all_exited_sending ws : all_exited ws = true → sending ws = [].
Proof.
  induction ws as [|w ws IH]; simpl; [done|].
  destruct w; simpl; done.
Qed.

Lemma sending_app ws1 ws2 : sending (ws1 ++ ws2) = sending ws1 ++ sending ws2.
Proof. apply omap_app. Qed.

Lemma sending_insert_send ws i w entry :
  ws !! i = Some w → w ≠ WSend entry → (∀ e, w ≠ WSend e) →
  sending (<[i := WSend entry]> ws) ≡ₚ entry :: sending ws.
Proof.
  intros Hi _ Hw. destruct (insert_split ws i w (WSend entry) Hi) as (l1 & l2 & -> & ->).
  rewrite !sending_app. unfold sending at 2 4. simpl.
  destruct w; simpl; try (by rewrite Permutation_middle).
  by destruct (Hw entry0).
Qed.

Lemma sending_insert_keep ws i w w' :
  ws !! i = Some w → (∀ e, w ≠ WSend e) → (∀ e, w' ≠ WSend e) →
  sending (<[i := w']> ws) = sending ws.
Proof.
  intros Hi Hw Hw'. destruct (insert_split ws i w w' Hi) as (l1 & l2 & -> & ->).
  rewrite !sending_app. f_equal. unfold sending. simpl.
  destruct w, w'; simpl; try done; naive_solver.
Qed.

Lemma sending_insert_sent ws i entry w' :
  ws !! i = Some (WSend entry) → (∀ e, w' ≠ WSend e) →
  entry :: sending (<[i := w']> ws) ≡ₚ sending ws.
Proof.
  intros Hi Hw'. destruct (insert_split ws i _ w' Hi) as (l1 & l2 & -> & ->).
  rewrite !sending_app. unfold sending at 2 4. simpl.
  destruct w'; simpl; try (by rewrite Permutation_middle).
  by destruct (Hw' entry0).
Qed.

Lemma sending_lookup (ws : list wstate) (i : nat) entry :
  ws !! i = Some (WSend entry) → entry ∈ sending ws.
Proof.
  intros Hi. destruct (insert_split ws i _ WIdle Hi) as (l1 & l2 & -> & _).
  rewrite sending_app. apply elem_of_app. right. unfold sending. simpl. left.
Qed.

Lemma sending_insert_Forall (P : RedisEntry → Prop) (ws : list wstate) i w w' :
  ws !! i = Some w → Forall P (sending ws) → (∀ e, w' = WSend e → P e) →
  Forall P (sending (<[i := w']> ws)).
Proof.
  intros Hi. destruct (insert_split ws i w w' Hi) as (l1 & l2 & -> & ->).
  rewrite !sending_app, !Forall_app. intros (H1 & H2) Hw. split; [done|].
  unfold sending in *. simpl in *.
  destruct w'; simpl; destruct w; simpl in H2; try done.
  all: try (by apply Forall_cons; split; [apply Hw|]).
  all: try (by apply Forall_cons in H2 as [_ ?]).
  apply Forall_cons in H2 as [_ ?]. apply Forall_cons. split; [by apply Hw|done].
Qed.

Lemma weight_app ws1 ws2 :
  sum_list (map wweight (ws1 ++ ws2))
  = (sum_list (map wweight ws1) + sum_list (map wweight ws2))%nat.
Proof. induction ws1 as [|w ws1 IH]; simpl; [done|]. rewrite IH. lia. Qed.

Lemma weight_insert ws i w w' :
  ws !! i = Some w →
  (sum_list (map wweight (<[i := w']> ws)) + wweight w
   = sum_list (map wweight ws) + wweight w')%nat.
Proof.
  intros Hi. destruct (insert_split ws i w w' Hi) as (l1 & l2 & -> & ->).
  rewrite !weight_app. simpl. lia.
Qed.

Lemma all_exited_insert ws i w :
  ws !! i = Some w → all_exited ws = true → all_exited (<[i := WExit]> ws) = true.
Proof.
  intros Hi. destruct (insert_split ws i w WExit Hi) as (l1 & l2 & -> & ->).
  rewrite !all_exited_app. simpl. intros [-> [_ ->]%andb_true_iff]%andb_true_iff. done.
Qed.

Lemma exit_in_insert (ws : list wstate) (i : nat) (w w' : wstate) :
  ws !! i = Some w → WExit ∈ <[i := w']> ws → w' = WExit ∨ WExit ∈ ws.
Proof.
  intros Hi. destruct (insert_split ws i w w' Hi) as (l1 & l2 & -> & ->).
  rewrite !elem_of_app, !elem_of_cons. intros [?|[->|?]]; eauto.
Qed.

(** One loop iteration of a worker, by cases. *)
Lemma worker_key_cases env done key w l :
  worker_key env done key = (w, l) →
  (done = true ∧ w = WExit ∧ l = [])
  ∨ (done = false ∧ ∃ err, processKey (client env) key = Err err ∧ w = WIdle
      ∧ l = [LogError [("key", key)] ("Error processing key: " +:+ Error err)])
  ∨ (done = false ∧ ∃ entry, processKey (client env) key = Ok entry
      ∧ w = WSend entry ∧ l = []).
Proof.
  unfold worker_key. destruct done; [naive_solver|].
  destruct (processKey (client env) key) eqn:E; intros; simplify_eq; naive_solver.
Qed.

(** ** The writer *)

Lemma writer_run_snoc env w l entry :
  writer_run env w (l ++ [entry]) = fst (writer_entry env (writer_run env w l) entry).
Proof. unfold writer_run. by rewrite fold_left_app. Qed.

Lemma Write_reliable env w data :
  reliable_sink env →
  Write env w data =
    ({| file := file w +:+ data; writes := S (writes w); enc_err := enc_err w;
        firstEntry := firstEntry w; processed := processed w |}, None).
Proof. intros H. unfold Write. by rewrite H. Qed.

Lemma writer_entry_reliable env w entry :
  reliable_sink env → enc_err w = None →
  file (writer_entry env w entry).1 =
    file w +:+ (if firstEntry w then "" else "," +:+ nl)
           +:+ match encode_bytes entry with Ok b => b | Err _ => "" end
  ∧ enc_err (writer_entry env w entry).1 = None
  ∧ firstEntry (writer_entry env w entry).1 = false.
Proof.
  intros Hrel Hok. unfold writer_entry, write_separator, Encode.
  destruct (firstEntry w) eqn:Hf; rewrite ?Write_reliable by done; simpl; rewrite Hok.
  - destruct (encode_bytes entry) as [b|err]; rewrite ?Write_reliable by done; simpl.
    + done.
    + by rewrite append_nil_r.
  - destruct (encode_bytes entry) as [b|err]; rewrite ?Write_reliable by done; simpl.
    + by rewrite append_assoc.
    + rewrite Hf. by rewrite append_nil_r.
Qed.

(** With a reliable sink the file is what it was, followed by the body
    of the array for the entries given to the writer. *)
Lemma writer_run_reliable env w l :
  reliable_sink env → enc_err w = None →
  file (writer_run env w l) = file w +:+ array_body (firstEntry w) l
  ∧ enc_err (writer_run env w l) = None.
Proof.
  intros Hrel. revert w. induction l as [|entry l IH]; intros w Hok.
  - simpl. by rewrite append_nil_r.
  - destruct (writer_entry_reliable env w entry Hrel Hok) as (Hf & He & Hfirst).
    change (writer_run env w (entry :: l))
      with (writer_run env (writer_entry env w entry).1 l).
    destruct (IH _ He) as [IHf IHe]. split; [|done].
    rewrite IHf, Hf, Hfirst.
    change (array_body (firstEntry w) (entry :: l))
      with ((if firstEntry w then "" else "," +:+ nl)
            +:+ match encode_bytes entry with Ok b => b | Err _ => "" end
            +:+ array_body false l).
    by rewrite !append_assoc.
Qed.

Lemma writer_open_reliable env :
  reliable_sink env →
  writer_open env = {| file := "[" +:+ nl; writes := 1; enc_err := None;
                       firstEntry := true; processed := 0 |}.
Proof. intros Hrel. unfold writer_open. by rewrite Write_reliable. Qed.

(** The file of a state, for a reliable sink: the opening bracket, the
    body for the entries written, and the closing bracket once [Export]
    has returned [nil]. *)
Lemma writer_after_reliable env ret written :
  reliable_sink env →
  file (writer_after env ret written) =
    "[" +:+ nl +:+ array_body true written
    +:+ match ret with Some None => nl +:+ "]" | _ => "" end.
Proof.
  intros Hrel. unfold writer_after, writer_close.
  rewrite (writer_open_reliable env Hrel).
  match goal with |- context [writer_run env ?w0 written] =>
    destruct (writer_run_reliable env w0 written Hrel eq_refl) as [Hf _]
  end.
  simpl in Hf.
  destruct ret as [[err|]|]; simpl.
  - by rewrite Hf, append_nil_r, append_assoc.
  - rewrite Write_reliable by done. simpl. by rewrite Hf, !append_assoc.
  - by rewrite Hf, append_nil_r, append_assoc.
Qed.

Lemma Write_processed env w data : processed (Write env w data).1 = processed w.
Proof. unfold Write. by destruct (write_err env (writes w)). Qed.

Lemma write_separator_processed env w : processed (write_separator env w) = processed w.
Proof. unfold write_separator. destruct (firstEntry w); [done|]. apply Write_processed. Qed.

Lemma Encode_processed env w entry : processed (Encode env w entry).1 = processed w.
Proof.
  unfold Encode. destruct (enc_err w); [done|].
  destruct (encode_bytes entry); [|done].
  pose proof (Write_processed env w a) as H.
  destruct (Write env w a) as [w' [err|]]; simpl in *; done.
Qed.

(** For a goal [∃ s, run cfg env tr = Some s ∧ _]: computes the run,
    names its final state [s] with [H : run cfg env tr = Some s] and
    [Hr : reachable cfg env s], and leaves the rest of the goal. *)
Ltac run_to s H Hr :=
  match goal with
  | |- ∃ s', run ?cfg ?env ?tr = Some s' ∧ _ =>
    let E := fresh "E" in
    assert (E : ∃ s', run cfg env tr = Some s') by (vm_compute; eauto);
    destruct E as [s H];
    pose proof (run_reachable cfg env tr s H) as Hr;
    exists s; split; [exact H|]
  end.

(** ** Invariants of the pipeline *)

Section Invariants.
Variable cfg : Config.
Variable env : Env.

(** A done context stays done. *)
Lemma ctx_done_mono a s s' :
  step cfg env a s = Some s' → ctx_done s = true → ctx_done s' = true.
Proof. intros H Hd. step_inv H; done. Qed.

(** The key channel is closed exactly when the scanner has returned. *)
Lemma keys_closed_iff s :
  reachable cfg env s → (scanner s = None ↔ keys_closed s = true).
Proof.
  revert s. apply reachable_ind.
  - intros s0 H%start_inv. subst. simpl. split; discriminate.
  - intros a s s' _ [IH1 IH2] H. step_inv H; split; intros; try done; auto;
      by match goal with Hk : keys_closed _ = true |- _ => specialize (IH2 Hk) end.
Qed.

(** Both channels never hold more than their capacity. *)
Lemma chan_bounded s :
  reachable cfg env s →
  (length (keysChan s) ≤ cap cfg ∧ length (resultsChan s) ≤ cap cfg)%nat.
Proof.
  revert s. apply reachable_ind.
  - intros s0 H%start_inv. subst. simpl. lia.
  - intros a s s' _ IH H.
    step_inv H; rewrite ?length_app; simpl; try case_bool_decide; try lia.
Qed.

(** The result channel is closed only after every worker has returned. *)
Lemma results_closed_exited s :
  reachable cfg env s → results_closed s = true → all_exited (workers s) = true.
Proof.
  revert s.
  apply (reachable_ind cfg env (λ s, results_closed s = true → all_exited (workers s) = true)).
  - intros s0 H%start_inv. subst. done.
  - intros a s s' _ IH H. step_inv H; intros Hc.
    all: try (by auto).
    all: try (by eapply all_exited_insert; eauto).
    all: try (by match goal with
                 | Hw : workers _ !! _ = Some ?w |- _ =>
                   pose proof (all_exited_lookup _ _ _ (IH Hc) Hw)
                 end).
    by apply andb_true_iff in H0 as [? _].
Qed.

(** [Export] returns an error only from the branch on the done context,
    and then the cause of the context. *)
Lemma returned_err s err :
  reachable cfg env s → returned s = Some (Some err) →
  ctx_done s = true ∧ err = ctx_cause env.
Proof.
  revert s.
  apply (reachable_ind cfg env
           (λ s, returned s = Some (Some err) → ctx_done s = true ∧ err = ctx_cause env)).
  - intros s0 H%start_inv. subst. done.
  - intros a s s' _ IH H. step_inv H; intros Hr; simplify_eq; try (by auto).
    all: try (by destruct (IH Hr)).
Qed.

(** After [Export] has returned [nil] the result channel is closed and
    empty. *)
Lemma returned_nil s :
  reachable cfg env s → returned s = Some None →
  results_closed s = true ∧ resultsChan s = [].
Proof.
  revert s.
  apply (reachable_ind cfg env
           (λ s, returned s = Some None →
                 results_closed s = true ∧ resultsChan s = [])).
  - intros s0 H%start_inv. subst. done.
  - intros a s s' Hs IH H. pose proof (results_closed_exited s Hs) as Hex.
    step_inv H; intros Hr; simplify_eq; try (by auto).
    all: destruct (IH Hr) as [Hc Hq]; specialize (Hex Hc); try done.
    all: by match goal with
            | Hw : workers _ !! _ = Some ?w |- _ =>
              pose proof (all_exited_lookup _ _ _ Hex Hw)
            end.
Qed.

(** While the context is not done, a worker returns only when the key
    channel is closed and drained, and it stays so. *)
Lemma exited_drained s :
  reachable cfg env s → ctx_done s = false → WExit ∈ workers s →
  keys_closed s = true ∧ keysChan s = [].
Proof.
  revert s.
  apply (reachable_ind cfg env
           (λ s, ctx_done s = false → WExit ∈ workers s →
                 keys_closed s = true ∧ keysChan s = [])).
  - intros s0 H%start_inv. subst. simpl. intros _ [H _]%elem_of_replicate. done.
  - intros a s s' Hs IH H. pose proof (keys_closed_iff s Hs) as [Hk1 Hk2].
    step_inv H; intros Hd Hin; simplify_eq; try (by auto).
    all: try match goal with
             | Hw : worker_key _ _ _ = _ |- _ =>
               apply worker_key_cases in Hw
                 as [(? & ? & ?)|[(? & ? & ? & ? & ?)|(? & ? & ? & ? & ?)]];
               simplify_eq
             end.
    all: try match goal with
             | Hw : workers _ !! _ = Some _, Hi : WExit ∈ <[_ := _]> _ |- _ =>
               apply (exit_in_insert _ _ _ _ Hw) in Hi as [?|Hi]; simplify_eq
             end.
    all: try (destruct (IH Hd Hin) as [Hc Hq];
              first [by specialize (Hk2 Hc) | congruence | done]).
    all: congruence.
Qed.

(** With a worker in the pool, a run that returns [nil] without
    cancellation has exhausted the source and drained the key queue. *)
Lemma returned_nil_completed s :
  reachable cfg env s → (0 < Workers cfg)%Z →
  returned s = Some None → ctx_done s = false → Completed s.
Proof.
  intros Hr Hw Hret Hd. destruct (returned_nil s Hr Hret) as [Hc Hq].
  pose proof (results_closed_exited s Hr Hc) as Hex.
  assert (Hlen : length (workers s) = Z.to_nat (Workers cfg)).
  { clear Hret Hd Hc Hq Hex. revert s Hr.
    apply (reachable_ind cfg env (λ s, length (workers s) = Z.to_nat (Workers cfg))).
    - intros s0 H%start_inv. subst. simpl. by rewrite length_replicate.
    - intros a s s' _ IH H. step_inv H; rewrite ?length_insert; done. }
  destruct (workers s) as [|w ws] eqn:Ews; [simpl in Hlen; lia|].
  assert (w = WExit) as -> by (by eapply (all_exited_lookup _ 0); [exact Hex|]).
  destruct (exited_drained s Hr Hd) as [Hk Hkq]; [rewrite Ews; left|].
  repeat split; try done. by apply keys_closed_iff.
Qed.

Lemma sending_idle n : sending (replicate n WIdle) = [].
Proof. induction n as [|n IH]; simpl; done. Qed.

(** Conservation of records: what the writer was given together with
    what is still on its way is, up to order, what the source resolves to,
    as long as the context is not done. The file is what the writer made
    of the entries it was given. *)
Lemma conservation s :
  reachable cfg env s →
  ∃ written,
    out s = writer_after env (returned s) written
    ∧ (ctx_done s = false →
       written ++ in_flight env s ≡ₚ resolved (client env) (source_keys cfg env)).
Proof.
  revert s. apply reachable_ind.
  { intros s0 H%start_inv. subst. exists []. split; [done|]. intros _.
    unfold in_flight. simpl. by rewrite sending_idle. }
  intros a s s' Hs (written & Hout & Hperm) H. unfold in_flight in *.
  step_inv H.
- (* ScanSend *)
  exists written. split; [done|]. intros Hd. rewrite <- (Hperm Hd).
  unfold resolved. rewrite omap_app. simpl.
  destruct (resolve (client env) s0); simpl; by rewrite <- ?app_assoc.
- (* ScanHandoff *)
  exists written. split; [done|]. intros Hd. rewrite <- (Hperm Hd).
  match goal with Hw : worker_key _ _ _ = _ |- _ =>
    apply worker_key_cases in Hw
      as [(? & ? & ?)|[(? & err & Hpk & ? & ?)|(? & entry & Hpk & ? & ?)]]
  end; simplify_eq; try congruence; unfold resolve; rewrite Hpk.
  + by rewrite list_insert_id.
  + rewrite sending_insert_send; [|done|done|done].
    do 2 f_equiv. simpl. apply Permutation_middle.
- (* ScanDone *) exists written. split; [done|]. done.
- (* ScanEnd *) exists written. split; [done|]. exact Hperm.
- exists written. split; [done|]. exact Hperm.
- (* WorkerRecv *)
  exists written. split; [done|]. intros Hd. rewrite <- (Hperm Hd).
  match goal with Hw : worker_key _ _ _ = _ |- _ =>
    apply worker_key_cases in Hw
      as [(? & ? & ?)|[(? & err & Hpk & ? & ?)|(? & entry & Hpk & ? & ?)]]
  end; simplify_eq; try congruence; unfold resolve; rewrite Hpk.
  + by rewrite list_insert_id.
  + rewrite sending_insert_send; [|done|done|done].
    do 2 f_equiv. simpl. apply Permutation_middle.
- (* WorkerClosed *)
  exists written. split; [done|]. intros Hd. rewrite <- (Hperm Hd).
  by erewrite sending_insert_keep.
- (* WorkerSend *)
  exists written. split; [done|]. intros Hd. rewrite <- (Hperm Hd).
  match goal with Hw : workers s !! i = Some (WSend ?e) |- _ =>
    rewrite <- (sending_insert_sent (workers s) i e WIdle) by done
  end.
  f_equiv. rewrite <- !app_assoc. simpl. f_equiv; try apply Permutation_middle.
- (* WorkerHandoff *)
  match goal with Hw : workers s !! i = Some (WSend ?e) |- _ => rename e into entry end.
  exists (written ++ [entry]). split.
  + rewrite writer_run_snoc. unfold writer_after in Hout. rewrite <- Hout.
    by match goal with Hw : writer_entry _ _ _ = _ |- _ => rewrite Hw end.
  + intros Hd. rewrite <- (Hperm Hd).
    rewrite <- (sending_insert_sent (workers s) i entry WIdle) by done.
    rewrite <- !app_assoc. simpl. f_equiv; try apply Permutation_middle.
- (* CloseResults *) exists written. split; [done|]. exact Hperm.
- (* MainRecv *)
  match goal with Hq : resultsChan s = ?e :: _ |- _ => rename e into entry end.
  exists (written ++ [entry]). split.
  + rewrite writer_run_snoc. unfold writer_after in Hout. rewrite <- Hout.
    by match goal with Hw : writer_entry _ _ _ = _ |- _ => rewrite Hw end.
  + intros Hd. rewrite <- (Hperm Hd). by rewrite <- !app_assoc.
- (* MainClosed *)
  exists written. split; [|exact Hperm]. by rewrite Hout.
- (* MainTick *) exists written. split; [done|]. exact Hperm.
- (* MainDone *) exists written. split; [done|]. done.
- (* Cancel *) exists written. split; [done|]. done.
Qed.

(** Provenance of records: every entry that the writer was given, or
    that is on its way to it, is what [processKey] returned for its key. *)
Lemma provenance s :
  reachable cfg env s →
  ∃ written,
    out s = writer_after env (returned s) written
    ∧ Forall (λ entry, processKey (client env) (Key entry) = Ok entry)
             (written ++ resultsChan s ++ sending (workers s)).
Proof.
  revert s. apply reachable_ind.
  { intros s0 H%start_inv. subst. exists []. split; [done|].
    simpl. by rewrite sending_idle. }
  intros a s s' Hs (written & Hout & Hall) H.
  rewrite !Forall_app in Hall. destruct Hall as (Hw & Hq & Hsend).
  step_inv H.
  all: try (exists written; split; [done|]; rewrite !Forall_app; by repeat split).
  - (* ScanHandoff *)
    exists written. split; [done|]. rewrite !Forall_app. repeat split; try done.
    eapply sending_insert_Forall; [done|done|]. intros e ->.
    match goal with Hk : worker_key _ _ _ = _ |- _ =>
      apply worker_key_cases in Hk
        as [(? & ? & ?)|[(? & err & Hpk & ? & ?)|(? & entry & Hpk & ? & ?)]]
    end; simplify_eq.
    by rewrite (processKey_Key _ _ _ Hpk).
  - (* WorkerRecv *)
    exists written. split; [done|]. rewrite !Forall_app. repeat split; try done.
    eapply sending_insert_Forall; [done|done|]. intros e ->.
    match goal with Hk : worker_key _ _ _ = _ |- _ =>
      apply worker_key_cases in Hk
        as [(? & ? & ?)|[(? & err & Hpk & ? & ?)|(? & entry & Hpk & ? & ?)]]
    end; simplify_eq.
    by rewrite (processKey_Key _ _ _ Hpk).
  - (* WorkerClosed *)
    exists written. split; [done|]. rewrite !Forall_app. repeat split; try done.
    by eapply sending_insert_Forall.
  - (* WorkerSend *)
    exists written. split; [done|]. rewrite !Forall_app. repeat split; try done.
    + apply Forall_singleton. eapply Forall_forall in Hsend; [exact Hsend|].
      by eapply sending_lookup.
    + by eapply sending_insert_Forall.
  - (* WorkerHandoff *)
    match goal with Hi : workers s !! i = Some (WSend ?e) |- _ => rename e into entry end.
    exists (written ++ [entry]). split.
    + rewrite writer_run_snoc. unfold writer_after in Hout. rewrite <- Hout.
      by match goal with Hk : writer_entry _ _ _ = _ |- _ => rewrite Hk end.
    + rewrite !Forall_app. repeat split; try done.
      * apply Forall_singleton. eapply Forall_forall in Hsend; [exact Hsend|].
        by eapply sending_lookup.
      * by eapply sending_insert_Forall.
  - (* MainRecv *)
    match goal with Hr : resultsChan s = ?e :: _ |- _ => rename e into entry end.
    apply Forall_cons in Hq as [He Hq].
    exists (written ++ [entry]). split.
    + rewrite writer_run_snoc. unfold writer_after in Hout. rewrite <- Hout.
      by match goal with Hk : writer_entry _ _ _ = _ |- _ => rewrite Hk end.
    + rewrite !Forall_app. repeat split; try done. by apply Forall_singleton.
  - (* MainClosed *)
    exists written. split; [by rewrite Hout|]. rewrite !Forall_app. by repeat split.
Qed.

(** A key for which [processKey] fails has no record anywhere on the way
    to the file, in any state of any run. *)
Lemma failed_key_never_written s key err :
  processKey (client env) key = Err err →
  reachable cfg env s →
  ∃ written,
    out s = writer_after env (returned s) written
    ∧ ∀ entry, entry ∈ written ++ resultsChan s ++ sending (workers s) →
               Key entry ≠ key.
Proof.
  intros Hpk Hr. destruct (provenance s Hr) as (written & Hout & Hall).
  exists written. split; [done|]. intros entry Hin Heq.
  rewrite Forall_forall in Hall. specialize (Hall _ Hin). simpl in Hall.
  rewrite Heq, Hpk in Hall. done.
Qed.

(** *** Progress: [Export] can always go on to return *)

Lemma pool_cases (ws : list wstate) :
  (∃ i entry, ws !! i = Some (WSend entry))
  ∨ (∃ i, ws !! i = Some WIdle)
  ∨ all_exited ws = true.
Proof.
  induction ws as [|w ws IH]; [by right; right|].
  destruct w as [|entry|].
  - right. left. by exists 0.
  - left. by exists 0, entry.
  - destruct IH as [(i & entry & H)|[(i & H)|H]].
    + left. by exists (S i), entry.
    + right. left. by exists (S i).
    + by right; right.
Qed.

Lemma normal_decreases a s s' :
  normal a = true → step cfg env a s = Some s' → (measure s' < measure s)%nat.
Proof.
  intros Hn H. step_inv H; try done.
  all: unfold measure; simpl; repeat case_match; simplify_eq.
  all: repeat match goal with
              | Hq : keysChan _ = _ |- _ => rewrite Hq
              | Hq : resultsChan _ = _ |- _ => rewrite Hq
              end.
  all: rewrite ?length_app; simpl.
  all: try match goal with
           | Hw : ?ws !! ?i = Some ?w |- context [<[?i := ?w']> ?ws] =>
             pose proof (weight_insert ws i w w' Hw)
           end.
  all: try match goal with
           | Hw : worker_key _ _ _ = (?w, _) |- _ =>
             assert (wweight w ≤ 3)%nat by (destruct w; simpl; lia)
           end.
  all: simpl in *; lia.
Qed.

(** A normal action leaves the context as it is, and ends [Export] only
    by returning [nil]. *)
Lemma normal_step a s s' :
  normal a = true → step cfg env a s = Some s' →
  ctx_done s' = ctx_done s
  ∧ (returned s = None → returned s' = None ∨ returned s' = Some None).
Proof. intros Hn H. step_inv H; try done; auto. Qed.

(** While [Export] has not returned, some normal action is enabled: the
    pipeline cannot get stuck. *)
Lemma progress s :
  reachable cfg env s → returned s = None →
  ∃ a s', normal a = true ∧ step cfg env a s = Some s'.
Proof.
  intros Hr Hret. pose proof (keys_closed_iff s Hr) as [Hk1 Hk2].
  destruct (resultsChan s) as [|entry rest] eqn:Hq.
  2:{ exists MainRecv. simpl. rewrite Hq, Hret. eauto. }
  destruct (results_closed s) eqn:Hc.
  { exists MainClosed. simpl. rewrite Hq, Hret, Hc. eauto. }
  destruct (pool_cases (workers s)) as [(i & entry & Hw)|[(i & Hw)|Hex]].
  { exists (WorkerHandoff i). simpl. rewrite Hw, Hq, Hret. eauto. }
  2:{ exists CloseResults. simpl. rewrite Hex, Hc. simpl. eauto. }
  destruct (keysChan s) as [|key keys] eqn:Hkeys.
  2:{ exists (WorkerRecv i). simpl. rewrite Hkeys, Hw. eauto. }
  destruct (keys_closed s) eqn:Hkc.
  { exists (WorkerClosed i). simpl. rewrite Hkeys, Hw, Hkc. eauto. }
  destruct (scanner s) as [[|key rest]|] eqn:Hsc.
  - exists ScanEnd. simpl. rewrite Hsc. eauto.
  - exists (ScanHandoff i). simpl. rewrite Hsc, Hkeys, Hw. eauto.
  - by specialize (Hk1 eq_refl).
Qed.

(** From every state of a run in which [Export] has not yet returned,
    the normal course of the pipeline leads to its return with [nil]. *)
Lemma can_return s :
  reachable cfg env s → returned s = None →
  ∃ tr s', exec cfg env tr s = Some s'
           ∧ returned s' = Some None ∧ ctx_done s' = ctx_done s.
Proof.
  remember (measure s) as n eqn:Hn. revert s Hn.
  induction n as [n IH] using lt_wf_ind. intros s -> Hr Hret.
  destruct (progress s Hr Hret) as (a & s1 & Hnorm & Hstep).
  pose proof (normal_decreases a s s1 Hnorm Hstep) as Hlt.
  destruct (normal_step a s s1 Hnorm Hstep) as [Hd Hret1].
  destruct (Hret1 Hret) as [Hnone|Hnil].
  - destruct (IH (measure s1) Hlt s1 eq_refl) as (tr & s' & Htr & Hnil & Hd');
      [by eapply reachable_step|done|].
    exists (a :: tr), s'. simpl. rewrite Hstep. split; [done|]. split; [done|congruence].
  - exists [a], s1. simpl. by rewrite Hstep.
Qed.

(** Without cancellation the scanner returns only after [iter.Next]
    returned false, and then an enumeration error is in the log. *)
Lemma scan_error_logged s err :
  scan_err (client_Scan (client env) (BatchSize cfg)) = Some err →
  reachable cfg env s → ctx_done s = false → scanner s = None →
  LogError [] ("Error during key scanning: " +:+ Error err) ∈ log s.
Proof.
  intros Herr. revert s.
  apply (reachable_ind cfg env
           (λ s, ctx_done s = false → scanner s = None →
                 LogError [] ("Error during key scanning: " +:+ Error err) ∈ log s)).
  - intros s0 H%start_inv. subst. done.
  - intros a s s' _ IH H. step_inv H; intros Hd Hsc; simplify_eq;
      rewrite ?elem_of_app; try (by auto); try (by left; auto).
    right. by left.
Qed.

(** When the run is completed, the writer was given exactly the records
    that the source resolves to, in some order. *)
Lemma completed_written s :
  reachable cfg env s → Completed s →
  ∃ written,
    out s = writer_after env (Some None) written
    ∧ written ≡ₚ resolved (client env) (source_keys cfg env).
Proof.
  intros Hr (Hret & Hd & Hsc & Hkeys).
  destruct (conservation s Hr) as (written & Hout & Hperm).
  destruct (returned_nil s Hr Hret) as [Hc Hq].
  pose proof (all_exited_sending _ (results_closed_exited s Hr Hc)) as Hsend.
  specialize (Hperm Hd). unfold in_flight in Hperm.
  rewrite Hq, Hsend, Hkeys, Hsc in Hperm. simpl in Hperm. rewrite app_nil_r in Hperm.
  exists written. by rewrite Hout, Hret.
Qed.

End Invariants.

(** ** The [ttl] field *)

Lemma processKey_TTL c key entry :
  processKey c key = Ok entry →
  ∃ ttl, client_TTL c key = Ok ttl
         ∧ TTL entry = if (0 <? ttl)%Z then Seconds ttl else 0%Z.
Proof.
  unfold processKey.
  destruct (client_Type c key) as [t|]; [|done].
  destruct (getValueByType c key t) as [v|]; [|done].
  destruct (client_TTL c key) as [ttl|]; [|done].
  intros [= <-]. by exists ttl.
Qed.

Lemma processKey_with_TTL c key ttl entry :
  processKey c key = Ok entry → client_TTL c key = Ok ttl →
  ∀ ttl', (if (0 <? ttl')%Z then Seconds ttl' else 0%Z)
          = (if (0 <? ttl)%Z then Seconds ttl else 0%Z) →
  processKey (with_TTL c (λ _, Ok ttl')) key = Ok entry.
Proof.
  unfold processKey, getValueByType. simpl. intros H Ht ttl' Heq. rewrite Ht in H.
  destruct (client_Type c key); [|done].
  repeat case_match; simplify_eq; by rewrite ?Heq.
Qed.

(** [omitempty]: the object has a [ttl] binding exactly when [TTL] is not
    zero. *)
Lemma marshal_entry_ttl entry j :
  marshal_entry entry = Ok j → has_field "ttl" j = negb (TTL entry =? 0)%Z.
Proof.
  unfold marshal_entry. destruct (marshal_value (Value entry)); [|done].
  simpl. intros [= <-]. simpl. by destruct (TTL entry =? 0)%Z.
Qed.

(** A document without a [ttl] binding decodes to a zero [TTL]. *)
Lemma unmarshal_omitted_ttl entry j :
  marshal_entry entry = Ok j → TTL entry = 0%Z →
  ∃ decoded, unmarshal_entry j = Ok decoded ∧ TTL decoded = 0%Z.
Proof.
  unfold marshal_entry. destruct (marshal_value (Value entry)); [|done].
  simpl. intros [= <-] ->. simpl. eexists. split; [reflexivity|]. done.
Qed.

(** ** Numbers read back *)

Lemma ParseInt_FormatInt (n : Z) :
  (MinInt64 ≤ n ≤ MaxInt64)%Z → ParseInt (FormatInt n) = Some n.
Proof.
  intros Hn. unfold ParseInt, FormatInt.
  rewrite NilZero.isi.
  - rewrite DecimalZ.of_to.
    destruct (Z.leb_spec MinInt64 n); [|lia].
    destruct (Z.leb_spec n MaxInt64); [|lia]. done.
  - destruct n; simpl; try done. intros [= H]. by apply Unsigned.to_uint_nonnil in H.
  - destruct n; simpl; try done. intros [= H]. by apply Unsigned.to_uint_nonnil in H.
Qed.

Lemma valid_utf8_id (s : string) : valid_utf8 s = true → to_valid_utf8 s = s.
Proof. unfold valid_utf8. by intros ?%String.eqb_eq. Qed.

(** * The statements of the specification *)

(** ** Key-scoped failures *)

(** C4. For every key, a failure of the type fetch, of the value fetch or
    of the TTL fetch, or a type that is not supported, aborts the
    resolution of that key only: [processKey] returns an error that wraps
    the cause and names the key; the worker that receives the key, from the
    buffer of the key channel ([WorkerRecv]) or straight from the scanner
    when the buffer is empty or the channel has none ([ScanHandoff]), logs
    the error under the key, sends nothing, and is back at the head of its
    loop; the key is consumed and the keys after it are as they were; the
    result channel, the writer and [Export] are as they were, the run can
    still go on to its normal completion, and in no state of any run is a
    record of the key given to the writer or on its way to it. *)
Theorem key_failure_is_key_scoped cfg env s a i key rest cause :
  reachable cfg env s → ctx_done s = false →
  workers s !! i = Some WIdle →
  (a = WorkerRecv i ∧ keysChan s = key :: rest)
  ∨ (a = ScanHandoff i ∧ keysChan s = [] ∧ scanner s = Some (key :: rest)) →
  fetch_fails (client env) key cause →
  ∃ err s',
    processKey (client env) key = Err err
    ∧ Unwrap err = Some cause
    ∧ Contains (Error err) key
    ∧ Contains (Error err) (Error cause)
    ∧ step cfg env a s = Some s'
    ∧ log s' = log s ++ [LogError [("key", key)] ("Error processing key: " +:+ Error err)]
    ∧ workers s' = workers s
    ∧ (a = WorkerRecv i → keysChan s' = rest ∧ scanner s' = scanner s)
    ∧ (a = ScanHandoff i → keysChan s' = [] ∧ scanner s' = Some rest)
    ∧ resultsChan s' = resultsChan s
    ∧ out s' = out s
    ∧ returned s' = returned s
    ∧ (returned s = None →
       ∃ tr s'', exec cfg env tr s' = Some s'' ∧ returned s'' = Some None)
    ∧ (∀ s2, reachable cfg env s2 →
             ∃ written,
               out s2 = writer_after env (returned s2) written
               ∧ ∀ entry, entry ∈ written ++ resultsChan s2 ++ sending (workers s2) →
                          Key entry ≠ key).
Proof.
  intros Hr Hd Hw Hrecv Hfail.
  destruct (fetch_fails_processKey _ _ _ Hfail) as (what & Hpk).
  destruct (wrapped_message what key cause) as [Hc1 Hc2].
  assert (Hstep : step cfg env a s =
    Some {| ctx_done := ctx_done s;
            scanner := match a with ScanHandoff _ => Some rest | _ => scanner s end;
            keysChan := match a with ScanHandoff _ => [] | _ => rest end;
            keys_closed := keys_closed s;
            workers := workers s;
            resultsChan := resultsChan s;
            results_closed := results_closed s;
            out := out s;
            returned := returned s;
            log := log s ++ [LogError [("key", key)]
                     ("Error processing key: " +:+ Error (ErrWrap (what +:+ key) cause))] |}).
  { destruct Hrecv as [[-> Hkeys]|(-> & Hkeys & Hsc)]; simpl.
    - rewrite Hkeys, Hw. unfold deliver_key, worker_key. rewrite Hd, Hpk.
      by rewrite list_insert_id.
    - rewrite Hsc, Hkeys, Hw. unfold deliver_key, worker_key. rewrite Hd, Hpk.
      by rewrite list_insert_id. }
  eexists _, _. split; [exact Hpk|]. do 3 (split; [done|]).
  split; [exact Hstep|]. simpl. repeat split; try done.
  - by destruct Hrecv as [[-> _]|(-> & _ & _)].
  - by destruct Hrecv as [[-> _]|(-> & _ & _)].
  - by destruct Hrecv as [[-> _]|(-> & _ & _)].
  - by destruct Hrecv as [[-> _]|(-> & _ & _)].
  - intros Hret.
    destruct (can_return cfg env _ (reachable_step _ _ _ _ _ Hr Hstep) Hret)
      as (tr & s'' & Htr & Hnil & _).
    by exists tr, s''.
  - intros s2 Hr2. by eapply failed_key_never_written.
Qed.

(** The key whose [TYPE] call fails: handed by the scanner to the worker
    of a pipeline whose channels have no buffer, and received from the
    buffer by the worker of the sample pipeline. *)
Lemma key_failure_is_key_scoped_witness :
  let cfg0 := {| OutputFile := "redis_export.json"; Workers := 1; BatchSize := 0 |} in
  let cfg := sample_cfg in
  let env := sample_env {| scan_keys := ["gone"; "test:key"]; scan_err := None |} in
  (∃ s, run cfg0 env [] = Some s
        ∧ ctx_done s = false
        ∧ workers s !! 0%nat = Some WIdle
        ∧ keysChan s = []
        ∧ scanner s = Some ["gone"; "test:key"]
        ∧ ∃ err s',
            processKey (client env) "gone" = Err err
            ∧ Unwrap err = Some (ErrNew "i/o timeout")
            ∧ Contains (Error err) "gone"
            ∧ Contains (Error err) "i/o timeout"
            ∧ step cfg0 env (ScanHandoff 0) s = Some s'
            ∧ log s' = log s ++ [LogError [("key", "gone")]
                                   ("Error processing key: " +:+ Error err)]
            ∧ workers s' = workers s
            ∧ (ScanHandoff 0 = WorkerRecv 0 →
               keysChan s' = ["test:key"] ∧ scanner s' = scanner s)
            ∧ (ScanHandoff 0 = ScanHandoff 0 →
               keysChan s' = [] ∧ scanner s' = Some ["test:key"])
            ∧ resultsChan s' = resultsChan s
            ∧ out s' = out s
            ∧ returned s' = returned s
            ∧ (returned s = None →
               ∃ tr s'', exec cfg0 env tr s' = Some s'' ∧ returned s'' = Some None)
            ∧ (∀ s2, reachable cfg0 env s2 →
                     ∃ written,
                       out s2 = writer_after env (returned s2) written
                       ∧ ∀ entry, entry ∈ written ++ resultsChan s2 ++ sending (workers s2) →
                                  Key entry ≠ "gone"))
  ∧ (∃ s, run cfg env [ScanSend; ScanSend] = Some s
          ∧ ctx_done s = false
          ∧ workers s !! 0%nat = Some WIdle
          ∧ keysChan s = ["gone"; "test:key"]
          ∧ ∃ err s',
              processKey (client env) "gone" = Err err
              ∧ Unwrap err = Some (ErrNew "i/o timeout")
              ∧ Contains (Error err) "gone"
              ∧ Contains (Error err) "i/o timeout"
              ∧ step cfg env (WorkerRecv 0) s = Some s'
              ∧ log s' = log s ++ [LogError [("key", "gone")]
                                     ("Error processing key: " +:+ Error err)]
              ∧ workers s' = workers s
              ∧ (WorkerRecv 0 = WorkerRecv 0 →
                 keysChan s' = ["test:key"] ∧ scanner s' = scanner s)
              ∧ (WorkerRecv 0 = ScanHandoff 0 →
                 keysChan s' = [] ∧ scanner s' = Some ["test:key"])
              ∧ resultsChan s' = resultsChan s
              ∧ out s' = out s
              ∧ returned s' = returned s
              ∧ (returned s = None →
                 ∃ tr s'', exec cfg env tr s' = Some s'' ∧ returned s'' = Some None)
              ∧ (∀ s2, reachable cfg env s2 →
                       ∃ written,
                         out s2 = writer_after env (returned s2) written
                         ∧ ∀ entry, entry ∈ written ++ resultsChan s2 ++ sending (workers s2) →
                                    Key entry ≠ "gone")).
Proof.
  intros cfg0 cfg env. split.
  - eexists. split; [reflexivity|]. do 4 (split; [reflexivity|]).
    apply (key_failure_is_key_scoped cfg0 env _ (ScanHandoff 0) 0 "gone" ["test:key"]
             (ErrNew "i/o timeout")).
    + apply (run_reachable _ _ []). reflexivity.
    + reflexivity.
    + reflexivity.
    + right. by repeat split.
    + left. reflexivity.
  - eexists. split; [reflexivity|]. do 3 (split; [reflexivity|]).
    apply (key_failure_is_key_scoped cfg env _ (WorkerRecv 0) 0 "gone" ["test:key"]
             (ErrNew "i/o timeout")).
    + apply (run_reachable _ _ [ScanSend; ScanSend]). reflexivity.
    + reflexivity.
    + reflexivity.
    + left. by split.
    + left. reflexivity.
Defined.

(** C5. For every key whose fetched type is none of string, list, set,
    zset, hash and stream, [getValueByType] returns the error "unsupported
    key type: <type>" (an error, not a value), [processKey] returns an
    error whose message contains it, and in every run no record of the key
    is given to the writer or is on its way to it: the key is not in the
    output. *)
Theorem unsupported_type_is_an_error cfg env key keyType :
  client_Type (client env) key = Ok keyType →
  keyType ∉ supported_types →
  getValueByType (client env) key keyType
    = Err (ErrNew ("unsupported key type: " +:+ keyType))
  ∧ (∃ err, processKey (client env) key = Err err
            ∧ Contains (Error err) ("unsupported key type: " +:+ keyType))
  ∧ (∀ s, reachable cfg env s →
          ∃ written, out s = writer_after env (returned s) written
                     ∧ ∀ entry, entry ∈ written ++ resultsChan s ++ sending (workers s) →
                                Key entry ≠ key).
Proof.
  intros Ht Hn. pose proof (unsupported_getValueByType (client env) key keyType Hn) as Hv.
  assert (Hpk : processKey (client env) key =
                Err (ErrWrap ("failed to get value for key " +:+ key)
                             (ErrNew ("unsupported key type: " +:+ keyType)))).
  { unfold processKey. by rewrite Ht, Hv. }
  split; [done|]. split.
  - eexists. split; [exact Hpk|]. apply wrapped_message.
  - intros s Hr. by eapply failed_key_never_written.
Qed.

(** The key of a module type in the sample store. *)
Lemma unsupported_type_is_an_error_witness :
  let cfg := sample_cfg in
  let env := sample_env {| scan_keys := ["doc"; "test:key"]; scan_err := None |} in
  client_Type (client env) "doc" = Ok "ReJSON-RL"
  ∧ ("ReJSON-RL" ∉ supported_types)
  ∧ getValueByType (client env) "doc" "ReJSON-RL"
      = Err (ErrNew "unsupported key type: ReJSON-RL")
  ∧ (∃ err, processKey (client env) "doc" = Err err
            ∧ Contains (Error err) "unsupported key type: ReJSON-RL")
  ∧ (∀ s, reachable cfg env s →
          ∃ written, out s = writer_after env (returned s) written
                     ∧ ∀ entry, entry ∈ written ++ resultsChan s ++ sending (workers s) →
                                Key entry ≠ "doc").
Proof.
  intros cfg env.
  assert (Hn : "ReJSON-RL" ∉ supported_types).
  { unfold supported_types. rewrite !not_elem_of_cons. repeat split; try done.
    apply not_elem_of_nil. }
  split; [reflexivity|]. split; [exact Hn|].
  apply (unsupported_type_is_an_error cfg env "doc" "ReJSON-RL"); [reflexivity|exact Hn].
Defined.

(** ** The [ttl] field of an element *)

(** C6. For every resolved key, the [ttl] field is in the emitted JSON
    element only if the remaining TTL was strictly above zero when it was
    read; and for a remaining TTL that is not positive the record is the
    one that the key gets when [TTL] reports no expiry (so the emitted
    bytes are the same): the field is absent and decodes to zero. *)
Theorem ttl_present_only_if_positive c key ttl entry j :
  client_TTL c key = Ok ttl →
  processKey c key = Ok entry →
  marshal_entry entry = Ok j →
  (has_field "ttl" j = true → (0 < ttl)%Z)
  ∧ ((ttl ≤ 0)%Z →
     processKey (with_TTL c (λ _, Ok NoExpiry)) key = Ok entry
     ∧ has_field "ttl" j = false
     ∧ ∃ decoded, unmarshal_entry j = Ok decoded ∧ TTL decoded = 0%Z).
Proof.
  intros Ht Hpk Hj.
  destruct (processKey_TTL c key entry Hpk) as (ttl0 & Ht0 & HTTL).
  rewrite Ht in Ht0. simplify_eq.
  rewrite (marshal_entry_ttl _ _ Hj). split.
  - destruct (Z.ltb_spec 0 ttl0) as [Hlt|Hle]; [done|].
    rewrite HTTL. done.
  - intros Hle. assert (E : (0 <? ttl0)%Z = false) by (apply Z.ltb_ge; lia).
    rewrite E in HTTL. split; [|split].
    + apply (processKey_with_TTL c key ttl0); [done|done|]. by rewrite E.
    + by rewrite HTTL.
    + by apply (unmarshal_omitted_ttl entry).
Qed.

(** The string key of the sample store, which has no expiry. *)
Lemma ttl_present_only_if_positive_witness :
  let c := sample_client {| scan_keys := ["test:key"]; scan_err := None |} in
  let entry := {| Key := "test:key"; Typ := "string";
                  Value := VString "test value"; TTL := 0 |} in
  let j := JObject [("key", JString "test:key"); ("type", JString "string");
                    ("value", JString "test value")] in
  client_TTL c "test:key" = Ok (-1)%Z
  ∧ processKey c "test:key" = Ok entry
  ∧ marshal_entry entry = Ok j
  ∧ (has_field "ttl" j = true → (0 < -1)%Z)
  ∧ ((-1 ≤ 0)%Z →
     processKey (with_TTL c (λ _, Ok NoExpiry)) "test:key" = Ok entry
     ∧ has_field "ttl" j = false
     ∧ ∃ decoded, unmarshal_entry j = Ok decoded ∧ TTL decoded = 0%Z).
Proof.
  intros c entry j. split; [reflexivity|]. split; [reflexivity|]. split; [reflexivity|].
  apply (ttl_present_only_if_positive c "test:key" (-1) entry j); reflexivity.
Defined.

(** C10. For every key whose remaining TTL is strictly between zero and
    one second when it is read, [processKey] stores zero whole seconds, and
    the encoded element has no [ttl] field, although the TTL was
    positive. *)
Theorem subsecond_ttl_is_omitted c key ttl entry :
  client_TTL c key = Ok ttl →
  (0 < ttl < Second)%Z →
  processKey c key = Ok entry →
  TTL entry = 0%Z
  ∧ ∀ j, marshal_entry entry = Ok j → has_field "ttl" j = false.
Proof.
  intros Ht Hrange Hpk.
  destruct (processKey_TTL c key entry Hpk) as (ttl0 & Ht0 & HTTL).
  rewrite Ht in Ht0. simplify_eq.
  assert (H0 : TTL entry = 0%Z).
  { rewrite HTTL. destruct (Z.ltb_spec 0 ttl0); [|done].
    unfold Seconds. apply Z.quot_small. lia. }
  split; [done|]. intros j Hj. rewrite (marshal_entry_ttl _ _ Hj). by rewrite H0.
Qed.

(** A key with half a second left. *)
Lemma subsecond_ttl_is_omitted_witness :
  let c := with_TTL (sample_client {| scan_keys := ["test:key"]; scan_err := None |})
                    (λ _, Ok 500000000%Z) in
  let entry := {| Key := "test:key"; Typ := "string";
                  Value := VString "test value"; TTL := 0 |} in
  client_TTL c "test:key" = Ok 500000000%Z
  ∧ (0 < 500000000 < Second)%Z
  ∧ processKey c "test:key" = Ok entry
  ∧ TTL entry = 0%Z
  ∧ ∀ j, marshal_entry entry = Ok j → has_field "ttl" j = false.
Proof.
  intros c entry. split; [reflexivity|]. split; [unfold Second; lia|].
  split; [reflexivity|].
  apply (subsecond_ttl_is_omitted c "test:key" 500000000 entry);
    [reflexivity | unfold Second; lia | reflexivity].
Defined.

(** ** Bounded queues *)

(** C9. Both channels are made with the configured batch size as their
    capacity, and in every state of every run, whatever the source holds,
    neither holds more than that: at most [BatchSize] keys are buffered
    between the scanner and the workers, and at most [BatchSize] records
    between the workers and the writer. *)
Theorem queues_bounded_by_batch_size cfg env s :
  reachable cfg env s →
  (Z.of_nat (length (keysChan s)) ≤ BatchSize cfg)%Z
  ∧ (Z.of_nat (length (resultsChan s)) ≤ BatchSize cfg)%Z.
Proof.
  intros Hr. destruct (chan_bounded cfg env s Hr) as [Hk Hq].
  pose proof (reachable_batch_size cfg env s Hr). unfold cap in *. lia.
Qed.

(** Two keys in the key channel of the sample pipeline. *)
Lemma queues_bounded_by_batch_size_witness :
  let cfg := sample_cfg in
  let env := sample_env {| scan_keys := ["gone"; "test:key"]; scan_err := None |} in
  ∃ s, run cfg env [ScanSend; ScanSend] = Some s
       ∧ keysChan s = ["gone"; "test:key"]
       ∧ (Z.of_nat (length (keysChan s)) ≤ BatchSize cfg)%Z
       ∧ (Z.of_nat (length (resultsChan s)) ≤ BatchSize cfg)%Z.
Proof.
  intros cfg env. eexists. split; [reflexivity|]. split; [reflexivity|].
  apply (queues_bounded_by_batch_size cfg env).
  apply (run_reachable _ _ [ScanSend; ScanSend]). reflexivity.
Defined.

(** ** A completed run *)

(** C7. When the source holds exactly the string key "test:key" with the
    value "test value" and no expiry, the output of a completed run is the
    JSON array [[{"key":"test:key","type":"string","value":"test value"}]],
    with no [ttl] field: the file holds the opening bracket, the element on
    a line of its own, and the closing bracket, which is that array once the
    insignificant whitespace is taken out. *)
Theorem single_string_key_output cfg env s :
  reachable cfg env s → Completed s → reliable_sink env →
  source_keys cfg env = ["test:key"] →
  client_Type (client env) "test:key" = Ok "string" →
  client_Get (client env) "test:key" = Ok "test value" →
  client_TTL (client env) "test:key" = Ok NoExpiry →
  file (out s) = "[" +:+ nl +:+ scenario_element +:+ nl +:+ nl +:+ "]"
  ∧ compact (file (out s)) = "[" +:+ scenario_element +:+ "]".
Proof.
  intros Hr (Hret & Hd & Hsc & Hkeys) Hrel Hsrc Ht Hg Httl.
  destruct (conservation cfg env s Hr) as (written & Hout & Hperm).
  destruct (returned_nil cfg env s Hr Hret) as [Hc Hq].
  pose proof (all_exited_sending _ (results_closed_exited cfg env s Hr Hc)) as Hsend.
  specialize (Hperm Hd). unfold in_flight in Hperm.
  rewrite Hq, Hsend, Hkeys, Hsc, Hsrc in Hperm. simpl in Hperm.
  unfold resolve, processKey, getValueByType in Hperm.
  rewrite Ht, Hg, Httl in Hperm. simpl in Hperm.
  rewrite app_nil_r in Hperm. apply Permutation_singleton_r in Hperm. subst written.
  rewrite Hout, Hret, writer_after_reliable by done.
  split; reflexivity.
Qed.

(** The sample pipeline on that source, run to its completion. *)
Lemma single_string_key_output_witness :
  let cfg := sample_cfg in
  let env := sample_env {| scan_keys := ["test:key"]; scan_err := None |} in
  ∃ s, run cfg env [ScanSend; ScanEnd; WorkerRecv 0; WorkerSend 0; WorkerClosed 0;
                    CloseResults; MainRecv; MainClosed] = Some s
       ∧ Completed s
       ∧ file (out s) = "[" +:+ nl +:+ scenario_element +:+ nl +:+ nl +:+ "]"
       ∧ compact (file (out s)) = "[" +:+ scenario_element +:+ "]".
Proof.
  intros cfg env. run_to s Hrun Hr.
  assert (Hc : Completed s) by (vm_compute in Hrun; by simplify_eq).
  split; [exact Hc|].
  apply (single_string_key_output cfg env s Hr Hc).
  - intros n. reflexivity.
  - reflexivity.
  - reflexivity.
  - reflexivity.
  - reflexivity.
Defined.

(** ** A failing enumeration *)

(** C1, as the code has it. When the enumeration of the keys fails, the
    failure is logged ("Error during key scanning: ...") and is not
    returned: [Export] returns an error only for a done context, and then
    the cause of the context; without cancellation the scanner ends with
    the failure in the log, [Export] can always go on to return [nil], and a
    completed run has written the records of the keys that were delivered
    before the failure, between the two brackets. *)
Theorem enumeration_failure_is_logged cfg env err s :
  scan_err (client_Scan (client env) (BatchSize cfg)) = Some err →
  reachable cfg env s →
  (∀ e, returned s = Some (Some e) → ctx_done s = true ∧ e = ctx_cause env)
  ∧ (ctx_done s = false → scanner s = None →
     LogError [] ("Error during key scanning: " +:+ Error err) ∈ log s)
  ∧ (returned s = None →
     ∃ tr s', exec cfg env tr s = Some s' ∧ returned s' = Some None
              ∧ ctx_done s' = ctx_done s)
  ∧ (Completed s →
     ∃ written,
       written ≡ₚ resolved (client env) (source_keys cfg env)
       ∧ (reliable_sink env →
          file (out s) = "[" +:+ nl +:+ array_body true written +:+ nl +:+ "]")).
Proof.
  intros Herr Hr. split; [|split; [|split]].
  - intros e He. by apply (returned_err cfg env s e).
  - by apply (scan_error_logged cfg env).
  - by apply can_return.
  - intros Hc. destruct (completed_written cfg env s Hr Hc) as (written & Hout & Hperm).
    exists written. split; [done|]. intros Hrel.
    by rewrite Hout, writer_after_reliable.
Qed.

(** C1, a run against it: the first page of the enumeration fails, and
    [Export] returns [nil] and leaves the text of an empty array in the
    file. *)
Lemma enumeration_failure_returns_nil :
  let cfg := sample_cfg in
  let env := sample_env {| scan_keys := []; scan_err := Some (ErrNew "connection reset") |} in
  scan_err (client_Scan (client env) (BatchSize cfg)) = Some (ErrNew "connection reset")
  ∧ ∃ s, run cfg env [ScanEnd; WorkerClosed 0; CloseResults; MainClosed] = Some s
         ∧ returned s = Some None
         ∧ file (out s) = "[" +:+ nl +:+ nl +:+ "]"
         ∧ log s = [LogInfo "Starting Redis export";
                    LogError [] "Error during key scanning: connection reset";
                    LogInfo "Export completed successfully"].
Proof.
  intros cfg env. split; [reflexivity|].
  run_to s Hrun Hr. vm_compute in Hrun. by simplify_eq.
Defined.

(** The same run, as an instance of the theorem. *)
Lemma enumeration_failure_is_logged_witness :
  let cfg := sample_cfg in
  let env := sample_env {| scan_keys := []; scan_err := Some (ErrNew "connection reset") |} in
  let err := ErrNew "connection reset" in
  scan_err (client_Scan (client env) (BatchSize cfg)) = Some err
  ∧ ∃ s, run cfg env [ScanEnd; WorkerClosed 0; CloseResults; MainClosed] = Some s
         ∧ Completed s
         ∧ (∀ e, returned s = Some (Some e) → ctx_done s = true ∧ e = ctx_cause env)
         ∧ (ctx_done s = false → scanner s = None →
            LogError [] ("Error during key scanning: " +:+ Error err) ∈ log s)
         ∧ (returned s = None →
            ∃ tr s', exec cfg env tr s = Some s' ∧ returned s' = Some None
                     ∧ ctx_done s' = ctx_done s)
         ∧ (Completed s →
            ∃ written,
              written ≡ₚ resolved (client env) (source_keys cfg env)
              ∧ (reliable_sink env →
                 file (out s) = "[" +:+ nl +:+ array_body true written +:+ nl +:+ "]")).
Proof.
  intros cfg env err. split; [reflexivity|].
  run_to s Hrun Hr.
  split; [vm_compute in Hrun; by simplify_eq|].
  apply (enumeration_failure_is_logged cfg env err s); [reflexivity|exact Hr].
Defined.

(** ** A failing element *)

(** C3, as the code has it. When [encoder.Encode] fails for an entry (the
    value does not marshal, or the write fails), the loop of [Export] logs
    the error under the key of the entry and continues, whether it took the
    entry from the buffer of the result channel ([MainRecv]) or straight
    from a worker blocked in its send ([WorkerHandoff]): the entry is taken
    off the channel or off the worker, which is back at the head of its
    loop, the count of processed keys is as it was, [Export] has not
    returned, and it can still go on to return [nil]. *)
Theorem encode_failure_is_skipped cfg env s a entry rest err :
  reachable cfg env s → returned s = None →
  (a = MainRecv ∧ resultsChan s = entry :: rest)
  ∨ (∃ i, a = WorkerHandoff i ∧ workers s !! i = Some (WSend entry)
          ∧ resultsChan s = [] ∧ rest = []) →
  (Encode env (write_separator env (out s)) entry).2 = Some err →
  ∃ s', step cfg env a s = Some s'
        ∧ returned s' = None
        ∧ resultsChan s' = rest
        ∧ (a = MainRecv → workers s' = workers s)
        ∧ (∀ i, a = WorkerHandoff i → workers s' = <[i := WIdle]> (workers s))
        ∧ processed (out s') = processed (out s)
        ∧ log s' = log s ++ [LogError [("key", Key entry)]
                               ("Error encoding entry: " +:+ Error err)]
        ∧ ∃ tr s'', exec cfg env tr s' = Some s'' ∧ returned s'' = Some None.
Proof.
  intros Hr Hret Hrecv Henc.
  pose proof (Encode_processed env (write_separator env (out s)) entry) as Hp.
  rewrite write_separator_processed in Hp.
  destruct (step cfg env a s) as [s'|] eqn:Hstep.
  2:{ destruct Hrecv as [[-> Hq]|(i & -> & Hw & Hq & _)]; simpl in Hstep.
      - by rewrite Hq, Hret in Hstep.
      - by rewrite Hw, Hq, Hret in Hstep. }
  exists s'. split; [done|].
  pose proof (reachable_step cfg env _ _ _ Hr Hstep) as Hr'.
  assert (Hs' : returned s' = None
                ∧ resultsChan s' = rest
                ∧ (a = MainRecv → workers s' = workers s)
                ∧ (∀ i, a = WorkerHandoff i → workers s' = <[i := WIdle]> (workers s))
                ∧ processed (out s') = processed (out s)
                ∧ log s' = log s ++ [LogError [("key", Key entry)]
                                       ("Error encoding entry: " +:+ Error err)]).
  { destruct Hrecv as [[-> Hq]|(i & -> & Hw & Hq & ->)]; simpl in Hstep.
    - rewrite Hq, Hret in Hstep. unfold deliver_entry, writer_entry in Hstep.
      destruct (Encode env (write_separator env (out s)) entry) as [w2 [e|]];
        simpl in Henc, Hp; simplify_eq. simpl in *. by repeat split.
    - rewrite Hw, Hq, Hret in Hstep. unfold deliver_entry, writer_entry in Hstep.
      destruct (Encode env (write_separator env (out s)) entry) as [w2 [e|]];
        simpl in Henc, Hp; simplify_eq. simpl in *. repeat split; try done.
      by intros j [= <-]. }
  destruct Hs' as (Hret' & Hq' & Hw1 & Hw2 & Hp' & Hl').
  do 6 (split; [done|]).
  destruct (can_return cfg env _ Hr' Hret') as (tr & s'' & Htr & Hnil & _).
  by exists tr, s''.
Qed.

(** C3, a run against it: the sorted set of the sample store has an
    infinite score, which does not marshal; the loop logs the error, goes
    on to the string key, writes it, and [Export] returns [nil]. *)
Lemma encode_failure_does_not_abort :
  let cfg := sample_cfg in
  let env := sample_env {| scan_keys := ["scores"; "test:key"]; scan_err := None |} in
  ∃ s, run cfg env [ScanSend; ScanSend; ScanEnd; WorkerRecv 0; WorkerSend 0;
                    WorkerRecv 0; WorkerSend 0; WorkerClosed 0; CloseResults;
                    MainRecv; MainRecv; MainClosed] = Some s
       ∧ LogError [("key", "scores")]
                  "Error encoding entry: json: unsupported value: +Inf" ∈ log s
       ∧ returned s = Some None
       ∧ processed (out s) = 1%Z
       ∧ file (out s) = "[" +:+ nl +:+ "," +:+ nl +:+ scenario_element +:+ nl +:+ nl +:+ "]".
Proof.
  intros cfg env. run_to s Hrun Hr. vm_compute in Hrun. simplify_eq.
  split; [|done]. simpl. do 1 right. left.
Defined.

(** The entry of the sorted set: held by the worker of a pipeline whose
    channels have no buffer and handed to the loop, and at the head of the
    result channel of the sample pipeline. *)
Lemma encode_failure_is_skipped_witness :
  let cfg0 := {| OutputFile := "redis_export.json"; Workers := 1; BatchSize := 0 |} in
  let cfg := sample_cfg in
  let env := sample_env {| scan_keys := ["scores"; "test:key"]; scan_err := None |} in
  let entry := {| Key := "scores"; Typ := "zset";
                  Value := VZs [{| Score := PosInf; Member := "top" |}]; TTL := 0 |} in
  let err := ErrNew "json: unsupported value: +Inf" in
  (∃ s, run cfg0 env [ScanHandoff 0] = Some s
        ∧ returned s = None
        ∧ workers s !! 0%nat = Some (WSend entry)
        ∧ resultsChan s = []
        ∧ (Encode env (write_separator env (out s)) entry).2 = Some err
        ∧ ∃ s', step cfg0 env (WorkerHandoff 0) s = Some s'
                ∧ returned s' = None
                ∧ resultsChan s' = []
                ∧ (WorkerHandoff 0 = MainRecv → workers s' = workers s)
                ∧ (∀ i, WorkerHandoff 0 = WorkerHandoff i →
                        workers s' = <[i := WIdle]> (workers s))
                ∧ processed (out s') = processed (out s)
                ∧ log s' = log s ++ [LogError [("key", Key entry)]
                                       ("Error encoding entry: " +:+ Error err)]
                ∧ ∃ tr s'', exec cfg0 env tr s' = Some s'' ∧ returned s'' = Some None)
  ∧ (∃ s, run cfg env [ScanSend; ScanSend; ScanEnd; WorkerRecv 0; WorkerSend 0] = Some s
          ∧ returned s = None
          ∧ resultsChan s = [entry]
          ∧ (Encode env (write_separator env (out s)) entry).2 = Some err
          ∧ ∃ s', step cfg env MainRecv s = Some s'
                  ∧ returned s' = None
                  ∧ resultsChan s' = []
                  ∧ (MainRecv = MainRecv → workers s' = workers s)
                  ∧ (∀ i, MainRecv = WorkerHandoff i →
                          workers s' = <[i := WIdle]> (workers s))
                  ∧ processed (out s') = processed (out s)
                  ∧ log s' = log s ++ [LogError [("key", Key entry)]
                                         ("Error encoding entry: " +:+ Error err)]
                  ∧ ∃ tr s'', exec cfg env tr s' = Some s'' ∧ returned s'' = Some None).
Proof.
  intros cfg0 cfg env entry err. split.
  - run_to s Hrun Hr.
    assert (Hs : returned s = None ∧ workers s !! 0%nat = Some (WSend entry)
                 ∧ resultsChan s = []
                 ∧ (Encode env (write_separator env (out s)) entry).2 = Some err)
      by (vm_compute in Hrun; by simplify_eq).
    destruct Hs as (Hret & Hw & Hq & Henc).
    split; [exact Hret|]. split; [exact Hw|]. split; [exact Hq|]. split; [exact Henc|].
    exact (encode_failure_is_skipped cfg0 env s (WorkerHandoff 0) entry [] err Hr Hret
             (or_intror (ex_intro _ 0%nat (conj eq_refl (conj Hw (conj Hq eq_refl)))))
             Henc).
  - run_to s Hrun Hr.
    assert (Hs : returned s = None ∧ resultsChan s = [entry]
                 ∧ (Encode env (write_separator env (out s)) entry).2 = Some err)
      by (vm_compute in Hrun; by simplify_eq).
    destruct Hs as (Hret & Hq & Henc).
    split; [exact Hret|]. split; [exact Hq|]. split; [exact Henc|].
    exact (encode_failure_is_skipped cfg env s MainRecv entry [] err Hr Hret
             (or_introl (conj eq_refl Hq)) Henc).
Defined.

(** ** Cancellation *)

(** C2, what the code does against it. Whenever [Export] returns an
    error, the context is done and the error is its cause, and the closing
    bracket was not written: the writer is as the entries given to it left
    it, so that with a reliable sink the file is the opening bracket
    followed by the elements written so far, and the array is left open. *)
Theorem cancelled_return_leaves_array_open cfg env s err :
  reachable cfg env s → returned s = Some (Some err) →
  ctx_done s = true
  ∧ err = ctx_cause env
  ∧ ∃ written,
      out s = writer_run env (writer_open env) written
      ∧ (reliable_sink env → file (out s) = "[" +:+ nl +:+ array_body true written).
Proof.
  intros Hr Hret. destruct (returned_err cfg env s err Hr Hret) as [Hd ->].
  split; [done|]. split; [done|].
  destruct (conservation cfg env s Hr) as (written & Hout & _).
  exists written. rewrite Hout, Hret. split; [done|]. intros Hrel.
  rewrite writer_after_reliable by done. by rewrite append_nil_r.
Qed.

(** A run of the sample pipeline over two keys: the record of the first
    key is written, the context is cancelled, and [Export] takes the branch
    of the done context. It returns the cause of the cancellation, and the
    file holds the opening bracket and the first element and no closing
    bracket: its brackets are not balanced. *)
Lemma cancelled_return_leaves_array_open_witness :
  let cfg := sample_cfg in
  let env := sample_env {| scan_keys := ["test:key"; "scores"]; scan_err := None |} in
  ∃ s, run cfg env [ScanSend; ScanSend; WorkerRecv 0; WorkerSend 0; MainRecv;
                    Cancel; MainDone] = Some s
       ∧ returned s = Some (Some (ErrNew "context canceled"))
       ∧ file (out s) = "[" +:+ nl +:+ scenario_element +:+ nl
       ∧ balanced (file (out s)) = false
       ∧ ctx_done s = true
       ∧ ErrNew "context canceled" = ctx_cause env
       ∧ ∃ written,
           out s = writer_run env (writer_open env) written
           ∧ (reliable_sink env → file (out s) = "[" +:+ nl +:+ array_body true written).
Proof.
  intros cfg env. run_to s Hrun Hr.
  assert (Hs : returned s = Some (Some (ErrNew "context canceled"))
               ∧ file (out s) = "[" +:+ nl +:+ scenario_element +:+ nl
               ∧ balanced (file (out s)) = false)
    by (vm_compute in Hrun; by simplify_eq).
  destruct Hs as (Hret & Hfile & Hbal).
  split; [exact Hret|]. split; [exact Hfile|]. split; [exact Hbal|].
  exact (cancelled_return_leaves_array_open cfg env s _ Hr Hret).
Defined.

(** ** Encoding and decoding a record *)

(** C8, as the code has it. Encoding a record and decoding the result
    gives a record with the same key and type (invalid UTF-8 replaced by
    U+FFFD), the same [ttl] (an omitted [ttl] decodes to zero, which is
    what was omitted), and as its value the generic form of the JSON that
    the value was encoded to: a string value comes back as that string, and
    comes back equal when it is valid UTF-8, while a list of strings comes
    back as a generic array, which is not the list that was encoded. *)
Theorem roundtrip_gives_generic_value e jv :
  marshal_value (Value e) = Ok jv →
  (MinInt64 ≤ TTL e ≤ MaxInt64)%Z →
  roundtrip e = Ok {| Key := to_valid_utf8 (Key e);
                      Typ := to_valid_utf8 (Typ e);
                      Value := decode_any jv;
                      TTL := TTL e |}
  ∧ (∀ str, Value e = VString str → decode_any jv = VString (to_valid_utf8 str))
  ∧ (∀ str, Value e = VString str →
            valid_utf8 (Key e) = true → valid_utf8 (Typ e) = true →
            valid_utf8 str = true → roundtrip e = Ok e)
  ∧ (∀ l, Value e = VStrings l →
          decode_any jv = VArray (map (λ str, VString (to_valid_utf8 str)) l)
          ∧ decode_any jv ≠ Value e).
Proof.
  intros Hjv Httl.
  assert (Hrt : roundtrip e = Ok {| Key := to_valid_utf8 (Key e);
                                    Typ := to_valid_utf8 (Typ e);
                                    Value := decode_any jv;
                                    TTL := TTL e |}).
  { unfold roundtrip, marshal_entry. rewrite Hjv. simpl.
    destruct (Z.eqb_spec (TTL e) 0) as [H0|H0]; simpl.
    - unfold set_Value, set_Typ, set_Key. simpl. by rewrite H0.
    - rewrite ParseInt_FormatInt by done. done. }
  split; [exact Hrt|]. split; [|split].
  - intros str Hv. rewrite Hv in Hjv. simpl in Hjv. by simplify_eq.
  - intros str Hv Hk Ht Hs. rewrite Hrt. rewrite Hv in Hjv. simpl in Hjv. simplify_eq.
    simpl. rewrite !valid_utf8_id by done. destruct e. simpl in *. by subst.
  - intros l Hv. rewrite Hv in Hjv |- *. simpl in Hjv. simplify_eq. simpl.
    split; [|done]. f_equal. by rewrite map_map.
Qed.

(** C8, a record against the claim: a list value comes back as a generic
    array, so the decoded record is not the one that was encoded. *)
Lemma roundtrip_changes_list_value :
  let e := {| Key := "colors"; Typ := "list"; Value := VStrings ["red"]; TTL := 0 |} in
  roundtrip e = Ok {| Key := "colors"; Typ := "list";
                      Value := VArray [VString "red"]; TTL := 0 |}
  ∧ roundtrip e ≠ Ok e.
Proof. intros e. split; [reflexivity|]. vm_compute. discriminate. Defined.

(** A string record with an expiry. *)
Lemma roundtrip_gives_generic_value_witness :
  let e := {| Key := "test:key"; Typ := "string";
              Value := VString "test value"; TTL := 3600 |} in
  let jv := JString "test value" in
  marshal_value (Value e) = Ok jv
  ∧ (MinInt64 ≤ TTL e ≤ MaxInt64)%Z
  ∧ roundtrip e = Ok {| Key := to_valid_utf8 (Key e);
                        Typ := to_valid_utf8 (Typ e);
                        Value := decode_any jv;
                        TTL := TTL e |}
  ∧ (∀ str, Value e = VString str → decode_any jv = VString (to_valid_utf8 str))
  ∧ (∀ str, Value e = VString str →
            valid_utf8 (Key e) = true → valid_utf8 (Typ e) = true →
            valid_utf8 str = true → roundtrip e = Ok e)
  ∧ (∀ l, Value e = VStrings l →
          decode_any jv = VArray (map (λ str, VString (to_valid_utf8 str)) l)
          ∧ decode_any jv ≠ Value e).
Proof.
  intros e jv.
  assert (Hr : (MinInt64 ≤ TTL e ≤ MaxInt64)%Z) by (unfold MinInt64, MaxInt64; simpl; lia).
  split; [reflexivity|]. split; [exact Hr|].
  apply (roundtrip_gives_generic_value e jv); [reflexivity|exact Hr].
Defined.

(** * Further properties of the code *)

(** ** The resolver *)

Lemma getValueByType_shape c key keyType v :
  getValueByType c key keyType = Ok v →
  keyType ∈ supported_types ∧ has_shape keyType v = true.
Proof.
  unfold getValueByType, supported_types.
  repeat match goal with
         | |- context [String.eqb keyType ?t] =>
           destruct (String.eqb_spec keyType t) as [->|_]
         end;
    [destruct (client_Get c key) | destruct (client_LRange c key)
     | destruct (client_SMembers c key) | destruct (client_ZRangeWithScores c key)
     | destruct (client_HGetAll c key) | destruct (client_XRange c key) | ];
    simpl; intros; simplify_eq; split; try done; set_solver.
Qed.

(** X1. A record that [processKey] returns carries the key it was asked
    for and the type that [TYPE] reported, which is one of the six
    supported types; its value has the dynamic type that belongs to that
    type; and its [TTL] is never negative. *)
Theorem resolved_record_is_well_formed c key entry :
  processKey c key = Ok entry →
  Key entry = key
  ∧ client_Type c key = Ok (Typ entry)
  ∧ Typ entry ∈ supported_types
  ∧ has_shape (Typ entry) (Value entry) = true
  ∧ (0 ≤ TTL entry)%Z.
Proof.
  unfold processKey.
  destruct (client_Type c key) as [t|] eqn:Ht; [|done].
  destruct (getValueByType c key t) as [v|] eqn:Hv; [|done].
  destruct (client_TTL c key) as [ttl|]; [|done].
  intros [= <-]. simpl. destruct (getValueByType_shape c key t v Hv) as [Hin Hs].
  repeat split; try done.
  destruct (Z.ltb_spec 0 ttl); [|done]. unfold Seconds, Second.
  apply Z.quot_pos; lia.
Qed.

(** The sorted set of the sample store. *)
Lemma resolved_record_is_well_formed_witness :
  let c := sample_client {| scan_keys := ["scores"]; scan_err := None |} in
  let entry := {| Key := "scores"; Typ := "zset";
                  Value := VZs [{| Score := PosInf; Member := "top" |}]; TTL := 0 |} in
  processKey c "scores" = Ok entry
  ∧ Key entry = "scores"
  ∧ client_Type c "scores" = Ok (Typ entry)
  ∧ Typ entry ∈ supported_types
  ∧ has_shape (Typ entry) (Value entry) = true
  ∧ (0 ≤ TTL entry)%Z.
Proof.
  intros c entry. split; [reflexivity|].
  apply (resolved_record_is_well_formed c "scores" entry). reflexivity.
Defined.

(** X2. A remaining TTL of [n] whole seconds, for a positive [n], is
    stored as [n]. *)
Theorem whole_seconds_ttl_is_kept c key n entry :
  client_TTL c key = Ok (n * Second)%Z →
  (0 < n)%Z →
  processKey c key = Ok entry →
  TTL entry = n
  ∧ ∀ j, marshal_entry entry = Ok j → has_field "ttl" j = true.
Proof.
  intros Ht Hn Hpk.
  destruct (processKey_TTL c key entry Hpk) as (ttl & Ht' & HTTL).
  rewrite Ht in Ht'. simplify_eq.
  assert (H : TTL entry = n).
  { rewrite HTTL. destruct (Z.ltb_spec 0 (n * Second)) as [_|Hle].
    - unfold Seconds. apply Z.quot_mul. unfold Second. lia.
    - unfold Second in Hle. lia. }
  split; [done|]. intros j Hj. rewrite (marshal_entry_ttl _ _ Hj).
  destruct (Z.eqb_spec (TTL entry) 0); [lia|done].
Qed.

(** A key with an hour left. *)
Lemma whole_seconds_ttl_is_kept_witness :
  let c := with_TTL (sample_client {| scan_keys := ["test:key"]; scan_err := None |})
                    (λ _, Ok (3600 * Second)%Z) in
  let entry := {| Key := "test:key"; Typ := "string";
                  Value := VString "test value"; TTL := 3600 |} in
  client_TTL c "test:key" = Ok (3600 * Second)%Z
  ∧ (0 < 3600)%Z
  ∧ processKey c "test:key" = Ok entry
  ∧ TTL entry = 3600%Z
  ∧ ∀ j, marshal_entry entry = Ok j → has_field "ttl" j = true.
Proof.
  intros c entry. split; [reflexivity|]. split; [lia|]. split; [reflexivity|].
  apply (whole_seconds_ttl_is_kept c "test:key" 3600 entry); [reflexivity|lia|reflexivity].
Defined.

Lemma marshal_scores_ok (l : list RedisZ) :
  (∃ js, result_all (map marshal_RedisZ l) = Ok js)
  ↔ forallb (λ z, finite (Score z)) l = true.
Proof.
  induction l as [|z l IH]; simpl; [split; eauto|].
  unfold marshal_RedisZ at 1. destruct (Score z); simpl.
  - rewrite <- IH. split.
    + intros [js H]. destruct (result_all (map marshal_RedisZ l)); [by eauto|done].
    + intros [js ->]. simpl. eauto.
  - split; [by intros [? ?]|done].
  - split; [by intros [? ?]|done].
  - split; [by intros [? ?]|done].
Qed.

Lemma processKey_shape c key entry :
  processKey c key = Ok entry → has_shape (Typ entry) (Value entry) = true.
Proof.
  unfold processKey.
  destruct (client_Type c key) as [t|]; [|done].
  destruct (getValueByType c key t) as [v|] eqn:Hv; [|done].
  destruct (client_TTL c key) as [ttl|]; [|done].
  intros [= <-]. simpl. by destruct (getValueByType_shape c key t v Hv).
Qed.

(** A value of one of the shapes that [getValueByType] returns encodes
    exactly when its scores, if any, are finite. *)
Lemma shaped_record_encodes entry :
  has_shape (Typ entry) (Value entry) = true →
  (∃ b, encode_bytes entry = Ok b) ↔ finite_scores (Value entry) = true.
Proof.
  intros Hs. unfold encode_bytes, marshal_entry.
  destruct (Value entry) as [| | |l| | | | | |]; simpl in *; try done;
    try (split; [done|]; intros _; eauto).
  rewrite <- marshal_scores_ok. split.
  - intros [b Hb]. destruct (result_all (map marshal_RedisZ l)); [by eauto|done].
  - intros [js ->]. simpl. eauto.
Qed.

(** X3. A record that [processKey] returns fails to encode exactly when
    it is a sorted set with a score that is not finite: every string, list,
    set, hash and stream record encodes, and so does every sorted set with
    finite scores. *)
Theorem resolved_record_encodes_iff_finite c key entry :
  processKey c key = Ok entry →
  (∃ b, encode_bytes entry = Ok b) ↔ finite_scores (Value entry) = true.
Proof.
  intros Hpk. by eapply shaped_record_encodes, processKey_shape.
Qed.

(** The sorted set of the sample store, whose score is infinite. *)
Lemma resolved_record_encodes_iff_finite_witness :
  let c := sample_client {| scan_keys := ["scores"]; scan_err := None |} in
  let entry := {| Key := "scores"; Typ := "zset";
                  Value := VZs [{| Score := PosInf; Member := "top" |}]; TTL := 0 |} in
  processKey c "scores" = Ok entry
  ∧ finite_scores (Value entry) = false
  ∧ encode_bytes entry = Err (ErrNew "json: unsupported value: +Inf")
  ∧ ((∃ b, encode_bytes entry = Ok b) ↔ finite_scores (Value entry) = true).
Proof.
  intros c entry. split; [reflexivity|]. split; [reflexivity|]. split; [reflexivity|].
  apply (resolved_record_encodes_iff_finite c "scores" entry). reflexivity.
Defined.

(** X4. [processKey] fails for no other reason than a key-scoped
    failure: its error wraps the cause of a failing fetch of the type, the
    value or the TTL (or names the unsupported type), under a message that
    names the key. *)
Theorem processKey_error_has_cause c key err :
  processKey c key = Err err →
  ∃ cause, Unwrap err = Some cause
           ∧ fetch_fails c key cause
           ∧ Contains (Error err) key
           ∧ Contains (Error err) (Error cause).
Proof.
  unfold processKey, fetch_fails.
  destruct (client_Type c key) as [t|e1] eqn:Ht.
  2:{ intros [= <-]. exists e1. split; [done|]. split; [by left|]. apply wrapped_message. }
  destruct (getValueByType c key t) as [v|e2] eqn:Hv.
  2:{ intros [= <-]. exists e2. split; [done|]. split; [right; left; eauto|].
      apply wrapped_message. }
  destruct (client_TTL c key) as [ttl|e3] eqn:Httl; [done|].
  intros [= <-]. exists e3. split; [done|]. split; [|apply wrapped_message].
  right. right. right. eauto.
Qed.

(** The key of the sample store whose [TYPE] call fails. *)
Lemma processKey_error_has_cause_witness :
  let c := sample_client {| scan_keys := ["gone"]; scan_err := None |} in
  let err := ErrWrap "failed to get type for key gone" (ErrNew "i/o timeout") in
  processKey c "gone" = Err err
  ∧ ∃ cause, Unwrap err = Some cause
             ∧ fetch_fails c "gone" cause
             ∧ Contains (Error err) "gone"
             ∧ Contains (Error err) (Error cause).
Proof.
  intros c err. split; [reflexivity|].
  apply (processKey_error_has_cause c "gone" err). reflexivity.
Defined.

(** ** The pipeline: termination *)

Lemma normal_exec_measure cfg env tr s s' :
  Forall (λ a, normal a = true) tr → exec cfg env tr s = Some s' →
  (length tr + measure s' ≤ measure s)%nat.
Proof.
  revert s. induction tr as [|a tr IH]; intros s Hn H; simpl in H.
  - simplify_eq. simpl. lia.
  - apply Forall_cons in Hn as [Ha Hn].
    destruct (step cfg env a s) as [s1|] eqn:Hs; [|done].
    pose proof (normal_decreases cfg env a s s1 Ha Hs).
    specialize (IH s1 Hn H). simpl. lia.
Qed.

Lemma normal_exec_returned cfg env tr s s' :
  Forall (λ a, normal a = true) tr → exec cfg env tr s = Some s' →
  returned s = None → returned s' = None ∨ returned s' = Some None.
Proof.
  revert s. induction tr as [|a tr IH]; intros s Hn H Hret; simpl in H.
  - simplify_eq. by left.
  - apply Forall_cons in Hn as [Ha Hn].
    destruct (step cfg env a s) as [s1|] eqn:Hs; [|done].
    destruct (normal_step cfg env a s s1 Ha Hs) as [_ Hr].
    destruct (Hr Hret) as [Hnone|Hnil]; [by eapply IH|].
    right. clear IH Hr Hret Hs. revert s1 H Hnil.
    induction tr as [|b tr IH]; intros s1 H Hnil; simpl in H; [by simplify_eq|].
    apply Forall_cons in Hn as [Hb Hn].
    destruct (step cfg env b s1) as [s2|] eqn:Hs; [|done].
    eapply (IH Hn s2); [done|]. clear IH. step_inv Hs; simpl; congruence.
Qed.

(** X5. [Export] cannot deadlock and cannot run for ever on its own:
    along a run of the normal actions (no ticker, no cancellation), as long
    as [Export] has not returned some normal action is enabled; the run has
    at most [5 * n + w + 3] steps for a source of [n] keys and [w] workers;
    and a return along it is the return of [nil]. *)
Theorem Export_returns_within_bound cfg env tr s :
  run cfg env tr = Some s →
  Forall (λ a, normal a = true) tr →
  (length tr ≤ 5 * length (source_keys cfg env) + Z.to_nat (Workers cfg) + 3)%nat
  ∧ (returned s = None → ∃ a s', normal a = true ∧ step cfg env a s = Some s')
  ∧ (∀ ret, returned s = Some ret → ret = None).
Proof.
  intros Hrun Hn. pose proof (run_reachable cfg env tr s Hrun) as Hr.
  unfold run in Hrun. destruct (Export_start cfg env) as [| |s0] eqn:H0; try done.
  pose proof (normal_exec_measure cfg env tr s0 s Hn Hrun) as Hm.
  apply start_inv in H0. split; [|split].
  - assert (Hw : ∀ n, sum_list (map wweight (replicate n WIdle)) = n)
      by (induction n as [|n IHn]; simpl; [done|by rewrite IHn]).
    assert (H0m : measure s0
                  = (5 * length (source_keys cfg env) + Z.to_nat (Workers cfg) + 3)%nat).
    { subst s0. unfold measure, source_keys. cbn [scanner keysChan workers resultsChan
                                                   results_closed returned].
      rewrite Hw. simpl. lia. }
    lia.
  - intros Hret. by apply progress.
  - intros ret Hret.
    destruct (normal_exec_returned cfg env tr s0 s Hn Hrun) as [H|H];
      [by subst s0 | congruence | congruence].
Qed.

(** The completed run of the sample pipeline over one key: 8 normal
    steps, within the bound of 9. *)
Lemma Export_returns_within_bound_witness :
  let cfg := sample_cfg in
  let env := sample_env {| scan_keys := ["test:key"]; scan_err := None |} in
  let tr := [ScanSend; ScanEnd; WorkerRecv 0; WorkerSend 0; WorkerClosed 0;
             CloseResults; MainRecv; MainClosed] in
  ∃ s, run cfg env tr = Some s
       ∧ Forall (λ a, normal a = true) tr
       ∧ returned s = Some None
       ∧ (length tr ≤ 5 * length (source_keys cfg env) + Z.to_nat (Workers cfg) + 3)%nat
       ∧ (returned s = None → ∃ a s', normal a = true ∧ step cfg env a s = Some s')
       ∧ (∀ ret, returned s = Some ret → ret = None).
Proof.
  intros cfg env tr. run_to s Hrun Hr.
  assert (Hn : Forall (λ a, normal a = true) tr) by (repeat constructor).
  split; [exact Hn|].
  split; [vm_compute in Hrun; by simplify_eq|].
  exact (Export_returns_within_bound cfg env tr s Hrun Hn).
Defined.

(** ** The pipeline: after the return, after a cancellation *)

(** X6. Once [Export] has returned, neither the file nor the returned
    value changes any more, whatever the goroutines that are left do. *)
Theorem nothing_is_written_after_return cfg env tr s s' ret :
  returned s = Some ret → exec cfg env tr s = Some s' →
  out s' = out s ∧ returned s' = Some ret.
Proof.
  revert s. induction tr as [|a tr IH]; intros s Hret H; simpl in H.
  - by simplify_eq.
  - destruct (step cfg env a s) as [s1|] eqn:Hs; [|done].
    assert (H1 : out s1 = out s ∧ returned s1 = Some ret).
    { clear IH H. step_inv Hs; simpl; split; congruence. }
    destruct H1 as [Ho Hr]. destruct (IH s1 Hr H) as [Ho' Hr']. split; congruence.
Qed.

(** After the cancelled run of the sample pipeline has returned, its
    worker takes the second key and the scanner ends. *)
Lemma nothing_is_written_after_return_witness :
  let cfg := sample_cfg in
  let env := sample_env {| scan_keys := ["test:key"; "scores"]; scan_err := None |} in
  ∃ s, run cfg env [ScanSend; ScanSend; WorkerRecv 0; WorkerSend 0; MainRecv;
                    Cancel; MainDone] = Some s
       ∧ ∃ s', exec cfg env [WorkerRecv 0; ScanEnd; CloseResults] s = Some s'
               ∧ returned s = Some (Some (ErrNew "context canceled"))
               ∧ out s' = out s
               ∧ returned s' = Some (Some (ErrNew "context canceled")).
Proof.
  intros cfg env. run_to s Hrun Hr.
  assert (He : ∃ s', exec cfg env [WorkerRecv 0; ScanEnd; CloseResults] s = Some s')
    by (vm_compute in Hrun; simplify_eq; vm_compute; eauto).
  destruct He as [s' He]. exists s'. split; [exact He|].
  assert (Hret : returned s = Some (Some (ErrNew "context canceled")))
    by (vm_compute in Hrun; by simplify_eq).
  split; [exact Hret|].
  exact (nothing_is_written_after_return cfg env _ s s' _ Hret He).
Defined.

Lemma sending_insert_exit (ws : list wstate) i :
  ws !! i = Some WIdle → sending (<[i := WExit]> ws) = sending ws.
Proof. intros Hi. by eapply sending_insert_keep. Qed.

(** One step under a done context adds no record to those that are
    resolved and not yet with the writer. *)
Lemma done_step_resolves_nothing cfg env a s s' :
  ctx_done s = true → step cfg env a s = Some s' →
  ctx_done s' = true
  ∧ resultsChan s' ++ sending (workers s') ⊆+ resultsChan s ++ sending (workers s).
Proof.
  intros Hd H. step_inv H; split; try done.
  all: try match goal with
           | Hw : worker_key _ _ _ = _ |- _ =>
             apply worker_key_cases in Hw
               as [(? & ? & ?)|[(? & ? & ? & ? & ?)|(? & ? & ? & ? & ?)]];
             simplify_eq
           end.
  all: try (by erewrite sending_insert_exit).
  all: try congruence.
  - (* WorkerSend *)
    match goal with Hw : workers s !! i = Some (WSend ?e) |- _ =>
      rewrite <- (sending_insert_sent (workers s) i e WIdle) by done
    end.
    by rewrite <- app_assoc.
  - (* WorkerHandoff *)
    match goal with Hw : workers s !! i = Some (WSend ?e) |- _ =>
      rewrite <- (sending_insert_sent (workers s) i e WIdle) by done
    end.
    by apply submseteq_cons.
  - (* MainRecv *)
    simpl. by apply submseteq_cons.
Qed.

(** X7. After the context is done no worker resolves another key: along
    every continuation of the run, the records in the result channel or
    held by workers are among those that were there already. *)
Theorem cancellation_stops_resolution cfg env tr s s' :
  ctx_done s = true → exec cfg env tr s = Some s' →
  resultsChan s' ++ sending (workers s') ⊆+ resultsChan s ++ sending (workers s).
Proof.
  revert s. induction tr as [|a tr IH]; intros s Hd H; simpl in H.
  - by simplify_eq.
  - destruct (step cfg env a s) as [s1|] eqn:Hs; [|done].
    destruct (done_step_resolves_nothing cfg env a s s1 Hd Hs) as [Hd1 Hsub].
    etrans; [by apply IH|done].
Qed.

(** The sample pipeline, cancelled with two keys in the key channel: the
    worker takes a key and returns without resolving it. *)
Lemma cancellation_stops_resolution_witness :
  let cfg := sample_cfg in
  let env := sample_env {| scan_keys := ["test:key"; "scores"]; scan_err := None |} in
  ∃ s, run cfg env [ScanSend; ScanSend; Cancel] = Some s
       ∧ ∃ s', exec cfg env [WorkerRecv 0] s = Some s'
               ∧ ctx_done s = true
               ∧ workers s' = [WExit]
               ∧ keysChan s' = ["scores"]
               ∧ resultsChan s' ++ sending (workers s')
                   ⊆+ resultsChan s ++ sending (workers s).
Proof.
  intros cfg env. run_to s Hrun Hr.
  assert (He : ∃ s', exec cfg env [WorkerRecv 0] s = Some s'
                     ∧ workers s' = [WExit] ∧ keysChan s' = ["scores"])
    by (vm_compute in Hrun; simplify_eq; vm_compute; eauto).
  destruct He as (s' & He & Hw & Hk). exists s'. split; [exact He|].
  assert (Hd : ctx_done s = true) by (vm_compute in Hrun; by simplify_eq).
  split; [exact Hd|]. split; [exact Hw|]. split; [exact Hk|].
  exact (cancellation_stops_resolution cfg env _ s s' Hd He).
Defined.

(** ** The pipeline: an empty pool *)

(** X8. With a worker count of zero or less there is no worker, and
    [Export] writes no element whatever the source holds: it can return
    [nil] at once, and whenever it has returned [nil] the count of processed
    keys is zero and, with a reliable sink, the file is the text of an empty
    array. *)
Theorem no_workers_export_nothing cfg env s :
  (Workers cfg ≤ 0)%Z → reachable cfg env s →
  workers s = [] ∧ resultsChan s = []
  ∧ (∃ s', run cfg env [CloseResults; MainClosed] = Some s' ∧ returned s' = Some None)
  ∧ (returned s = Some None →
     processed (out s) = 0%Z
     ∧ (reliable_sink env → file (out s) = "[" +:+ nl +:+ nl +:+ "]")).
Proof.
  intros Hw Hr.
  assert (Hinv : workers s = [] ∧ resultsChan s = []
                 ∧ out s = writer_after env (returned s) []).
  { revert s Hr.
    apply (reachable_ind cfg env
             (λ s, workers s = [] ∧ resultsChan s = []
                   ∧ out s = writer_after env (returned s) [])).
    - intros s0 H%start_inv. subst. simpl.
      replace (Z.to_nat (Workers cfg)) with 0%nat by lia. done.
    - intros a s s' _ (Hws & Hq & Hout) H.
      step_inv H; try done;
        try (by match goal with Hl : workers _ !! _ = Some _ |- _ =>
                  rewrite Hws in Hl end);
        try congruence.
      repeat split; try done. by rewrite Hout. }
  destruct Hinv as (Hws & Hq & Hout). split; [done|]. split; [done|]. split.
  - destruct Hr as (s0 & tr & H0 & _). unfold run. rewrite H0.
    apply start_inv in H0. subst s0. simpl.
    replace (Z.to_nat (Workers cfg)) with 0%nat by lia. simpl. eauto.
  - intros Hret. rewrite Hout, Hret. split.
    + unfold writer_after, writer_close, writer_open. simpl.
      by rewrite !Write_processed.
    + intros Hrel. by rewrite writer_after_reliable.
Qed.

(** The sample store with a key, exported with no workers. *)
Lemma no_workers_export_nothing_witness :
  let cfg := {| OutputFile := "redis_export.json"; Workers := 0; BatchSize := 10 |} in
  let env := sample_env {| scan_keys := ["test:key"]; scan_err := None |} in
  (Workers cfg ≤ 0)%Z
  ∧ ∃ s, run cfg env [ScanSend; ScanEnd; CloseResults; MainClosed] = Some s
         ∧ returned s = Some None
         ∧ keysChan s = ["test:key"]
         ∧ file (out s) = "[" +:+ nl +:+ nl +:+ "]"
         ∧ workers s = [] ∧ resultsChan s = []
         ∧ (∃ s', run cfg env [CloseResults; MainClosed] = Some s'
                  ∧ returned s' = Some None)
         ∧ (returned s = Some None →
            processed (out s) = 0%Z
            ∧ (reliable_sink env → file (out s) = "[" +:+ nl +:+ nl +:+ "]")).
Proof.
  intros cfg env. split; [simpl; lia|]. run_to s Hrun Hr.
  assert (Hs : returned s = Some None ∧ keysChan s = ["test:key"]
               ∧ file (out s) = "[" +:+ nl +:+ nl +:+ "]")
    by (vm_compute in Hrun; by simplify_eq).
  destruct Hs as (Hret & Hk & Hf).
  split; [exact Hret|]. split; [exact Hk|]. split; [exact Hf|].
  apply (no_workers_export_nothing cfg env s); [simpl; lia|exact Hr].
Defined.

(** ** The pipeline: the count of processed keys *)

Lemma int64_succ (x : Z) : int64 (int64 x + 1) = int64 (x + 1).
Proof.
  unfold int64. f_equal.
  replace ((x + 2 ^ 63) mod 2 ^ 64 - 2 ^ 63 + 1 + 2 ^ 63)%Z
    with ((x + 2 ^ 63) mod 2 ^ 64 + 1)%Z by lia.
  rewrite Zplus_mod_idemp_l. f_equal. lia.
Qed.

Lemma length_element_lines_cons entry l :
  length (element_lines (entry :: l))
  = ((match encode_bytes entry with Ok _ => 1 | Err _ => 0 end)
     + length (element_lines l))%nat.
Proof. unfold element_lines. simpl. by destruct (encode_bytes entry). Qed.

Lemma writer_entry_processed env w entry :
  reliable_sink env → enc_err w = None →
  processed (writer_entry env w entry).1 =
    match encode_bytes entry with
    | Ok _ => int64 (processed w + 1)
    | Err _ => processed w
    end.
Proof.
  intros Hrel Hok. unfold writer_entry, Encode.
  assert (He : enc_err (write_separator env w) = None).
  { unfold write_separator. destruct (firstEntry w); [done|].
    by rewrite Write_reliable. }
  rewrite He. pose proof (write_separator_processed env w) as Hp.
  destruct (encode_bytes entry) as [b|err]; [|done].
  rewrite Write_reliable by done. simpl. by rewrite Hp.
Qed.

Lemma writer_run_processed env w l p :
  reliable_sink env → enc_err w = None → processed w = int64 p →
  processed (writer_run env w l) = int64 (p + Z.of_nat (length (element_lines l))).
Proof.
  intros Hrel. revert w p. induction l as [|entry l IH]; intros w p Hok Hp.
  - simpl. rewrite Hp. f_equal. lia.
  - change (writer_run env w (entry :: l))
      with (writer_run env (writer_entry env w entry).1 l).
    destruct (writer_entry_reliable env w entry Hrel Hok) as (_ & He & _).
    pose proof (writer_entry_processed env w entry Hrel Hok) as Hpe.
    rewrite length_element_lines_cons.
    destruct (encode_bytes entry) as [b|err].
    + rewrite (IH _ (p + 1)%Z He).
      * f_equal. lia.
      * by rewrite Hpe, Hp, int64_succ.
    + rewrite (IH _ p He); [f_equal; lia|congruence].
Qed.

(** X9. In a completed run with a reliable sink, the count of processed
    keys (the total of the final log record) is the number of source keys
    whose record resolves and encodes, as an [int64]. *)
Theorem processed_counts_written_elements cfg env s :
  reachable cfg env s → Completed s → reliable_sink env →
  processed (out s)
  = int64 (Z.of_nat (length (element_lines
                               (resolved (client env) (source_keys cfg env))))).
Proof.
  intros Hr Hc Hrel.
  destruct (completed_written cfg env s Hr Hc) as (written & Hout & Hperm).
  rewrite Hout. unfold writer_after, writer_close. cbv zeta iota beta.
  cbn [fst]. rewrite Write_processed.
  rewrite (writer_run_processed env _ written 0 Hrel).
  - unfold element_lines. by rewrite Hperm.
  - by rewrite writer_open_reliable.
  - by rewrite writer_open_reliable.
Qed.

(** The sample store with the sorted set that does not encode and the
    string key: one of the two keys is counted. *)
Lemma processed_counts_written_elements_witness :
  let cfg := sample_cfg in
  let env := sample_env {| scan_keys := ["scores"; "test:key"]; scan_err := None |} in
  ∃ s, run cfg env [ScanSend; ScanSend; ScanEnd; WorkerRecv 0; WorkerSend 0;
                    WorkerRecv 0; WorkerSend 0; WorkerClosed 0; CloseResults;
                    MainRecv; MainRecv; MainClosed] = Some s
       ∧ Completed s
       ∧ reliable_sink env
       ∧ processed (out s) = 1%Z
       ∧ processed (out s)
         = int64 (Z.of_nat (length (element_lines
                                      (resolved (client env) (source_keys cfg env))))).
Proof.
  intros cfg env. run_to s Hrun Hr.
  assert (Hs : Completed s ∧ processed (out s) = 1%Z)
    by (vm_compute in Hrun; by simplify_eq).
  destruct Hs as (Hc & Hp).
  assert (Hrel : reliable_sink env) by (intros n; reflexivity).
  split; [exact Hc|]. split; [exact Hrel|]. split; [exact Hp|].
  exact (processed_counts_written_elements cfg env s Hr Hc Hrel).
Defined.

(** ** The pipeline: every key is accounted for *)

Lemma logged_key_errors_app l1 l2 :
  logged_key_errors (l1 ++ l2) = logged_key_errors l1 ++ logged_key_errors l2.
Proof. apply omap_app. Qed.

Lemma writer_entry_logs_no_key_error env w entry :
  logged_key_errors (writer_entry env w entry).2 = [].
Proof.
  unfold writer_entry.
  destruct (Encode env (write_separator env w) entry) as [w2 [err|]]; by vm_compute.
Qed.

Lemma worker_key_log env key w l :
  worker_key env false key = (w, l) →
  logged_key_errors l = option_list (key_error (client env) key).
Proof.
  unfold worker_key, key_error.
  destruct (processKey (client env) key); intros; simplify_eq; [done|].
  by vm_compute.
Qed.

(** As long as the context is not done, the log records of workers about
    keys, together with those that the keys still to be resolved will give,
    are those of the keys of the source. *)
Lemma key_errors_conservation cfg env s :
  reachable cfg env s → ctx_done s = false →
  logged_key_errors (log s)
  ++ omap (key_error (client env)) (keysChan s ++ default [] (scanner s))
  ≡ₚ omap (key_error (client env)) (source_keys cfg env).
Proof.
  revert s.
  apply (reachable_ind cfg env
           (λ s, ctx_done s = false →
                 logged_key_errors (log s)
                 ++ omap (key_error (client env)) (keysChan s ++ default [] (scanner s))
                 ≡ₚ omap (key_error (client env)) (source_keys cfg env))).
  { intros s0 H%start_inv. subst. done. }
  intros a s s' _ IH H. step_inv H; intros Hd; try done.
  all: try specialize (IH Hd).
  all: rewrite ?logged_key_errors_app.
  all: try match goal with
           | Hw : worker_key _ _ _ = _ |- _ =>
             rewrite Hd in Hw; rewrite (worker_key_log _ _ _ _ Hw)
           end.
  all: try match goal with
           | Hw : writer_entry ?e ?w ?x = (_, ?l) |- _ =>
             let Hl := fresh "Hl" in
             pose proof (writer_entry_logs_no_key_error e w x) as Hl;
             rewrite Hw in Hl; simpl in Hl; rewrite Hl
           end.
  all: try match goal with
           | |- context [logged_key_errors [?r]] =>
             replace (logged_key_errors [r]) with (@nil logline) by (by vm_compute)
           end.
  all: rewrite ?app_nil_r; try rewrite app_nil_r in IH; try done.
  - (* ScanSend *) by rewrite <- app_assoc.
  - (* ScanHandoff *)
    rewrite <- IH. simpl. destruct (key_error (client env) s0); simpl.
    + by rewrite <- app_assoc.
    + by rewrite app_nil_r.
  - (* WorkerRecv *)
    rewrite <- IH. simpl. case_match; simpl.
    + by rewrite <- app_assoc.
    + by rewrite app_nil_r.
Qed.

Lemma resolved_or_error c keys :
  (length (resolved c keys) + length (omap (key_error c) keys) = length keys)%nat.
Proof.
  unfold resolved, resolve, key_error.
  induction keys as [|key keys IH]; [done|]. unfold omap in *. simpl.
  destruct (processKey c key); simpl; lia.
Qed.

(** X10. In a completed run every key of the source is accounted for
    once: the writer was given, in some order, exactly the records of the
    keys that resolve, and the log holds, in some order, exactly one record
    "Error processing key: ..." for each of the other keys. *)
Theorem completed_run_accounts_for_every_key cfg env s :
  reachable cfg env s → Completed s →
  (∃ written,
     out s = writer_after env (Some None) written
     ∧ written ≡ₚ resolved (client env) (source_keys cfg env))
  ∧ logged_key_errors (log s) ≡ₚ omap (key_error (client env)) (source_keys cfg env)
  ∧ (length (resolved (client env) (source_keys cfg env))
     + length (logged_key_errors (log s)) = length (source_keys cfg env))%nat.
Proof.
  intros Hr Hc. pose proof Hc as (Hret & Hd & Hsc & Hkeys).
  pose proof (key_errors_conservation cfg env s Hr Hd) as Hlog.
  rewrite Hkeys, Hsc in Hlog. simpl in Hlog. rewrite app_nil_r in Hlog.
  split; [by apply completed_written|]. split; [done|].
  rewrite Hlog. apply resolved_or_error.
Qed.

(** The sample store with the string key and the key whose [TYPE] call
    fails: one record for the writer, one record in the log. *)
Lemma completed_run_accounts_for_every_key_witness :
  let cfg := sample_cfg in
  let env := sample_env {| scan_keys := ["gone"; "test:key"]; scan_err := None |} in
  ∃ s, run cfg env [ScanSend; ScanSend; ScanEnd; WorkerRecv 0; WorkerRecv 0;
                    WorkerSend 0; WorkerClosed 0; CloseResults; MainRecv;
                    MainClosed] = Some s
       ∧ Completed s
       ∧ logged_key_errors (log s)
         = [LogError [("key", "gone")]
              "Error processing key: failed to get type for key gone: i/o timeout"]
       ∧ (∃ written,
            out s = writer_after env (Some None) written
            ∧ written ≡ₚ resolved (client env) (source_keys cfg env))
       ∧ logged_key_errors (log s)
         ≡ₚ omap (key_error (client env)) (source_keys cfg env)
       ∧ (length (resolved (client env) (source_keys cfg env))
          + length (logged_key_errors (log s)) = length (source_keys cfg env))%nat.
Proof.
  intros cfg env. run_to s Hrun Hr.
  assert (Hs : Completed s
               ∧ logged_key_errors (log s)
                 = [LogError [("key", "gone")]
                      "Error processing key: failed to get type for key gone: i/o timeout"])
    by (vm_compute in Hrun; by simplify_eq).
  destruct Hs as (Hc & Hl). split; [exact Hc|]. split; [exact Hl|].
  exact (completed_run_accounts_for_every_key cfg env s Hr Hc).
Defined.

(** ** The pipeline: the order of the elements *)

(** With a single worker the records keep the order of the enumeration
    all along the pipeline, as long as the context is not done. *)
Lemma single_worker_conservation cfg env s :
  Workers cfg = 1%Z → reachable cfg env s →
  ∃ w written,
    workers s = [w]
    ∧ out s = writer_after env (returned s) written
    ∧ (ctx_done s = false →
       written ++ in_flight env s = resolved (client env) (source_keys cfg env)).
Proof.
  intros Hone. revert s. apply reachable_ind.
  { intros s0 H%start_inv. subst. exists WIdle, []. rewrite Hone. done. }
  intros a s s' Hs (w & written & Hws & Hout & Heq) H. unfold in_flight in *.
  step_inv H.
  all: try match goal with
           | Hl : workers _ !! ?i = Some _ |- _ =>
             rewrite Hws in Hl; destruct i as [|i]; simpl in Hl; simplify_eq
           end.
  all: rewrite ?Hws in *; simpl in *.
  all: try match goal with
           | Hw : worker_key _ _ _ = _ |- _ =>
             apply worker_key_cases in Hw
               as [(? & ? & ?)|[(? & err & Hpk & ? & ?)|(? & entry & Hpk & ? & ?)]];
             simplify_eq
           end.
  all: eexists.
  all: first
         [ (* the writer took no entry *)
           exists written; split; [reflexivity|];
           split; [first [done | by rewrite Hout]|]
         | (* the writer took the entry *)
           match goal with
           | Hk : writer_entry _ _ ?e = _ |- _ =>
             exists (written ++ [e]); split; [reflexivity|]; split;
             [rewrite writer_run_snoc; unfold writer_after in Hout;
              rewrite <- Hout; by rewrite Hk|]
           end ].
  all: intros Hd; try congruence; specialize (Heq Hd).
  all: unfold resolved, resolve in *.
  all: try match goal with Hpk : processKey _ _ = _ |- _ => rewrite Hpk in Heq end.
  all: rewrite <- Heq; rewrite ?omap_app; simpl; rewrite <- ?app_assoc; simpl.
  all: try done.
  all: by destruct (processKey _ _).
Qed.

(** X11. With one worker a completed run gives the writer the records of
    the keys in the order of the enumeration; with a reliable sink the
    file is the array of their lines in that order. *)
Theorem single_worker_keeps_enumeration_order cfg env s :
  Workers cfg = 1%Z → reachable cfg env s → Completed s →
  out s = writer_after env (Some None)
            (resolved (client env) (source_keys cfg env))
  ∧ (reliable_sink env →
     file (out s)
     = "[" +:+ nl
       +:+ array_body true (resolved (client env) (source_keys cfg env))
       +:+ nl +:+ "]").
Proof.
  intros Hone Hr (Hret & Hd & Hsc & Hkeys).
  destruct (single_worker_conservation cfg env s Hone Hr)
    as (w & written & Hws & Hout & Heq).
  destruct (returned_nil cfg env s Hr Hret) as [Hc Hq].
  pose proof (all_exited_sending _ (results_closed_exited cfg env s Hr Hc)) as Hsend.
  specialize (Heq Hd). unfold in_flight in Heq.
  rewrite Hq, Hsend, Hkeys, Hsc in Heq. simpl in Heq. rewrite app_nil_r in Heq.
  subst written. rewrite Hret in Hout. split; [exact Hout|].
  intros Hrel. rewrite Hout. by rewrite writer_after_reliable.
Qed.

Lemma single_worker_keeps_enumeration_order_witness :
  let cfg := sample_cfg in
  let env := sample_env {| scan_keys := ["test:key"; "gone"; "test:key"];
                           scan_err := None |} in
  ∃ s, run cfg env [ScanSend; ScanSend; ScanSend; ScanEnd; WorkerRecv 0;
                    WorkerSend 0; WorkerRecv 0; WorkerRecv 0; WorkerSend 0;
                    WorkerClosed 0; CloseResults; MainRecv; MainRecv;
                    MainClosed] = Some s
       ∧ Workers cfg = 1%Z
       ∧ Completed s
       ∧ out s = writer_after env (Some None)
                   (resolved (client env) (source_keys cfg env))
       ∧ (reliable_sink env →
          file (out s)
          = "[" +:+ nl
            +:+ array_body true (resolved (client env) (source_keys cfg env))
            +:+ nl +:+ "]").
Proof.
  intros cfg env. run_to s Hrun Hr.
  assert (Hc : Completed s) by (vm_compute in Hrun; by simplify_eq).
  split; [reflexivity|]. split; [exact Hc|].
  exact (single_worker_keeps_enumeration_order cfg env s eq_refl Hr Hc).
Defined.

(** ** The pipeline: no record twice *)

Lemma resolved_cons_submseteq c key keys :
  resolved c keys ⊆+ resolved c (key :: keys).
Proof.
  unfold resolved. simpl. destruct (resolve c key); [by apply submseteq_cons|done].
Qed.

(** In every state, done context or not, what the writer was given and
    what is still on its way are among the records that the source
    resolves to, each as often as its key is enumerated at most. *)
Lemma written_submseteq cfg env s :
  reachable cfg env s →
  ∃ written,
    out s = writer_after env (returned s) written
    ∧ written ++ in_flight env s ⊆+ resolved (client env) (source_keys cfg env).
Proof.
  revert s. apply reachable_ind.
  { intros s0 H%start_inv. subst. exists []. split; [done|].
    unfold in_flight. simpl. by rewrite sending_idle. }
  intros a s s' Hs (written & Hout & Hsub) H. unfold in_flight in *.
  step_inv H.
  all: try match goal with
           | Hw : worker_key _ _ _ = _ |- _ =>
             apply worker_key_cases in Hw
               as [(? & ? & ?)|[(? & err & Hpk & ? & ?)|(? & entry & Hpk & ? & ?)]];
             simplify_eq
           end.
  all: first
         [ match goal with
           | Hk : writer_entry _ _ ?e = _ |- _ =>
             exists (written ++ [e]); split;
             [rewrite writer_run_snoc; unfold writer_after in Hout;
              rewrite <- Hout; by rewrite Hk|]
           end
         | exists written; split; [first [done | by rewrite Hout]|] ].
  all: (etrans; [|exact Hsub]).
  all: try done.
  all: unfold resolve in *.
  all: try match goal with Hpk : processKey _ _ = _ |- _ => rewrite Hpk end.
  all: try (erewrite sending_insert_exit by done).
  all: try (rewrite list_insert_id by done).
  all: try (rewrite sending_insert_send by done).
  all: try match goal with
           | Hw : workers ?s1 !! ?i = Some (WSend ?e) |- _ =>
             rewrite <- (sending_insert_sent (workers s1) i e WIdle) by done
           end.
  all: try done.
  all: try destruct (processKey _ _) eqn:Hk.
  all: unfold resolved; rewrite ?omap_app; rewrite <- ?app_assoc; simpl.
  all: try (unfold resolve at 2; rewrite Hk; simpl).
  all: try done.
  all: repeat (apply submseteq_app; [done|]).
  all: try (by apply submseteq_nil_l).
  all: try (by apply submseteq_cons).
  all: apply Permutation_submseteq; by apply Permutation_middle.
Qed.

Lemma resolved_keys_sublist c keys :
  map Key (resolved c keys) `sublist_of` keys.
Proof.
  induction keys as [|key keys IH]; [done|].
  unfold resolved, resolve. simpl.
  destruct (processKey c key) as [entry|err] eqn:Hpk; simpl.
  - rewrite (processKey_Key _ _ _ Hpk). by apply sublist_skip.
  - by apply sublist_cons.
Qed.

(** X12. Whatever the schedule, and whether or not the run was cancelled,
    the entries that the loop of [Export] was given are records that the
    source resolves to, each at most as often as its key was enumerated:
    no record is made up and none is written twice. In particular there
    are no more of them than keys, and their keys are distinct when the
    enumerated keys are. *)
Theorem no_record_is_written_twice cfg env s :
  reachable cfg env s →
  ∃ written,
    out s = writer_after env (returned s) written
    ∧ written ⊆+ resolved (client env) (source_keys cfg env)
    ∧ (length written ≤ length (source_keys cfg env))%nat
    ∧ (NoDup (source_keys cfg env) → NoDup (map Key written)).
Proof.
  intros Hr. destruct (written_submseteq cfg env s Hr) as (written & Hout & Hsub).
  exists written. split; [exact Hout|].
  assert (Hw : written ⊆+ resolved (client env) (source_keys cfg env)).
  { etrans; [|exact Hsub]. by apply submseteq_inserts_r. }
  assert (Hk : map Key written ⊆+ source_keys cfg env).
  { etrans; [by apply fmap_submseteq|].
    apply sublist_submseteq, resolved_keys_sublist. }
  split; [exact Hw|]. split.
  - apply submseteq_length in Hk. by rewrite length_map in Hk.
  - intros Hnd. apply submseteq_sublist_r in Hk as (l2 & Hp & Hl2).
    rewrite Hp. by eapply sublist_NoDup.
Qed.

(** The sample pipeline, cancelled after the first of two keys was
    written. *)
Lemma no_record_is_written_twice_witness :
  let cfg := sample_cfg in
  let env := sample_env {| scan_keys := ["test:key"; "scores"]; scan_err := None |} in
  ∃ s, run cfg env [ScanSend; ScanSend; WorkerRecv 0; WorkerSend 0; MainRecv;
                    Cancel; MainDone] = Some s
       ∧ returned s = Some (Some (ErrNew "context canceled"))
       ∧ ∃ written,
           out s = writer_after env (returned s) written
           ∧ written ⊆+ resolved (client env) (source_keys cfg env)
           ∧ (length written ≤ length (source_keys cfg env))%nat
           ∧ (NoDup (source_keys cfg env) → NoDup (map Key written)).
Proof.
  intros cfg env. run_to s Hrun Hr.
  split; [vm_compute in Hrun; by simplify_eq|].
  exact (no_record_is_written_twice cfg env s Hr).
Defined.

(** ** The pipeline: the framing of the array *)

Lemma array_body_join (l : list RedisEntry) :
  array_body true l = join ("," +:+ nl) (map slot l)
  ∧ array_body false l
    = match l with
      | [] => ""
      | _ => "," +:+ nl +:+ join ("," +:+ nl) (map slot l)
      end.
Proof.
  induction l as [|entry l [_ IH]]; [done|].
  change (array_body true (entry :: l)) with ("" +:+ slot entry +:+ array_body false l).
  change (array_body false (entry :: l))
    with (("," +:+ nl) +:+ slot entry +:+ array_body false l).
  rewrite IH. destruct l as [|entry' l]; simpl map; cbn [join].
  - by rewrite !append_nil_r.
  - rewrite !append_assoc. done.
Qed.

Lemma slots_of_encoding (l : list RedisEntry) :
  Forall (λ entry, ∃ b, encode_bytes entry = Ok b) l →
  map slot l = element_lines l.
Proof.
  unfold element_lines, slot.
  induction 1 as [|entry l [b Hb] _ IH]; simpl; [done|].
  rewrite Hb. simpl. by rewrite IH.
Qed.

Lemma resolved_shape c keys :
  Forall (λ entry, has_shape (Typ entry) (Value entry) = true) (resolved c keys).
Proof.
  induction keys as [|key keys IH]; unfold resolved, resolve; simpl; [done|].
  destruct (processKey c key) as [entry|err] eqn:Hpk; [|done].
  constructor; [by eapply processKey_shape|done].
Qed.

(** X13. With a reliable sink the file of a completed run is the opening
    bracket, one slot for every record that the source resolves to, with
    the separator between any two slots, and the closing bracket; the slot
    of a record that does not encode is empty. When no resolved record has
    a score that is not finite, every slot holds the line of its record, so
    the file is the lines of all the records joined by the separator. *)
Theorem completed_file_is_joined_slots cfg env s :
  reachable cfg env s → Completed s → reliable_sink env →
  ∃ written,
    written ≡ₚ resolved (client env) (source_keys cfg env)
    ∧ file (out s)
      = "[" +:+ nl +:+ join ("," +:+ nl) (map slot written) +:+ nl +:+ "]"
    ∧ (Forall (λ entry, finite_scores (Value entry) = true)
              (resolved (client env) (source_keys cfg env)) →
       map slot written = element_lines written
       ∧ length (element_lines written) = length written).
Proof.
  intros Hr Hc Hrel.
  destruct (completed_written cfg env s Hr Hc) as (written & Hout & Hperm).
  exists written. split; [exact Hperm|]. split.
  - rewrite Hout, writer_after_reliable by done.
    by destruct (array_body_join written) as [-> _].
  - intros Hfin.
    assert (Henc : Forall (λ entry, ∃ b, encode_bytes entry = Ok b) written).
    { rewrite Hperm. pose proof (resolved_shape (client env) (source_keys cfg env)) as Hsh.
      rewrite Forall_forall in Hsh, Hfin. apply Forall_forall. intros entry Hin.
      apply shaped_record_encodes; auto. }
    rewrite <- (slots_of_encoding written Henc). by rewrite length_map.
Qed.

(** The sample pipeline with the sorted set first: its slot is empty,
    and the separator follows the opening bracket. *)
Lemma completed_file_is_joined_slots_witness :
  let cfg := sample_cfg in
  let env := sample_env {| scan_keys := ["scores"; "test:key"]; scan_err := None |} in
  ∃ s, run cfg env [ScanSend; ScanSend; ScanEnd; WorkerRecv 0; WorkerSend 0;
                    WorkerRecv 0; WorkerSend 0; WorkerClosed 0; CloseResults;
                    MainRecv; MainRecv; MainClosed] = Some s
       ∧ Completed s
       ∧ reliable_sink env
       ∧ HasPrefix (file (out s)) ("[" +:+ nl +:+ "," +:+ nl) = true
       ∧ ∃ written,
           written ≡ₚ resolved (client env) (source_keys cfg env)
           ∧ file (out s)
             = "[" +:+ nl +:+ join ("," +:+ nl) (map slot written) +:+ nl +:+ "]"
           ∧ (Forall (λ entry, finite_scores (Value entry) = true)
                     (resolved (client env) (source_keys cfg env)) →
              map slot written = element_lines written
              ∧ length (element_lines written) = length written).
Proof.
  intros cfg env. run_to s Hrun Hr.
  assert (Hs : Completed s
               ∧ HasPrefix (file (out s)) ("[" +:+ nl +:+ "," +:+ nl) = true)
    by (vm_compute in Hrun; by simplify_eq).
  destruct Hs as (Hc & Hp).
  assert (Hrel : reliable_sink env) by (intros n; reflexivity).
  split; [exact Hc|]. split; [exact Hrel|]. split; [exact Hp|].
  exact (completed_file_is_joined_slots cfg env s Hr Hc Hrel).
Defined.

(** ** The pipeline under the context of the root command *)

Lemma background_exec cfg env tr s s' :
  background tr = true → ctx_done s = false → exec cfg env tr s = Some s' →
  ctx_done s' = false ∧ Forall (λ a, a ≠ MainDone ∧ a ≠ ScanDone) tr.
Proof.
  revert s. induction tr as [|a tr IH]; intros s Hb Hd H; simpl in H.
  - by simplify_eq.
  - destruct (step cfg env a s) as [s1|] eqn:Hs; [|done].
    simpl in Hb. apply andb_prop in Hb as [Ha Hb].
    assert (Hd1 : ctx_done s1 = false ∧ a ≠ MainDone ∧ a ≠ ScanDone).
    { clear IH H Hb. step_inv Hs; try done; congruence. }
    destruct Hd1 as (Hd1 & Ha1). destruct (IH s1 Hb Hd1 H) as [Hd' Hall].
    split; [exact Hd'|]. by constructor.
Qed.

(** X14. The root command runs [Export] under [context.Background()],
    which is never done. In such a run neither [Export] nor the scanner
    ever takes its [ctx.Done()] branch, so [Export] returns nothing but
    [nil]; with at least one worker it then has enumerated every key and
    drained the key queue, and with a reliable sink the file ends with the
    closing bracket. *)
Theorem background_run_returns_only_nil cfg env tr s :
  background tr = true → run cfg env tr = Some s →
  ctx_done s = false
  ∧ Forall (λ a, a ≠ MainDone ∧ a ≠ ScanDone) tr
  ∧ (∀ ret, returned s = Some ret →
       ret = None
       ∧ ((0 < Workers cfg)%Z → Completed s)
       ∧ (reliable_sink env →
          ∃ body, file (out s) = "[" +:+ nl +:+ body +:+ nl +:+ "]")).
Proof.
  intros Hb Hrun. pose proof (run_reachable cfg env tr s Hrun) as Hr.
  unfold run in Hrun. destruct (Export_start cfg env) as [| |s0] eqn:H0; try done.
  assert (Hd0 : ctx_done s0 = false) by (apply start_inv in H0; by subst).
  destruct (background_exec cfg env tr s0 s Hb Hd0 Hrun) as [Hd Hall].
  split; [exact Hd|]. split; [exact Hall|].
  intros ret Hret.
  assert (ret = None) as ->.
  { destruct ret as [err|]; [|done].
    destruct (returned_err cfg env s err Hr Hret). congruence. }
  split; [done|]. split.
  - intros Hw. by apply (returned_nil_completed cfg env).
  - intros Hrel. destruct (conservation cfg env s Hr) as (written & Hout & _).
    exists (array_body true written).
    by rewrite Hout, Hret, writer_after_reliable.
Qed.

(** The sample pipeline on one string key, run to its return. *)
Lemma background_run_returns_only_nil_witness :
  let cfg := sample_cfg in
  let env := sample_env {| scan_keys := ["test:key"]; scan_err := None |} in
  let tr := [ScanSend; ScanEnd; WorkerRecv 0; MainTick; WorkerHandoff 0;
             WorkerClosed 0; CloseResults; MainClosed] in
  ∃ s, run cfg env tr = Some s
       ∧ background tr = true
       ∧ returned s = Some None
       ∧ ctx_done s = false
       ∧ Forall (λ a, a ≠ MainDone ∧ a ≠ ScanDone) tr
       ∧ (∀ ret, returned s = Some ret →
            ret = None
            ∧ ((0 < Workers cfg)%Z → Completed s)
            ∧ (reliable_sink env →
               ∃ body, file (out s) = "[" +:+ nl +:+ body +:+ nl +:+ "]")).
Proof.
  intros cfg env tr. run_to s Hrun Hr.
  split; [reflexivity|].
  split; [vm_compute in Hrun; by simplify_eq|].
  exact (background_run_returns_only_nil cfg env tr s eq_refl Hrun).
Defined.

(** ** The pipeline and the sink *)

(** A step is enabled, and does to the goroutines, the same whatever the
    sink does. *)
Lemma step_control cfg env failing a s1 s2 s1' :
  control s1 = control s2 → step cfg env a s1 = Some s1' →
  ∃ s2', step cfg (with_sink env failing) a s2 = Some s2'
         ∧ control s1' = control s2'.
Proof.
  unfold control. intros Hc H. destruct s1, s2. simpl in Hc. simplify_eq.
  destruct a; simpl in *; unfold deliver_key, deliver_entry, writer_close in *;
    simpl in *; repeat case_match; simplify_eq; eexists; (split; [reflexivity|]);
    simpl; try done.
  all: unfold worker_key in *; simpl in *; congruence.
Qed.

Lemma exec_control cfg env failing tr s1 s2 s1' :
  control s1 = control s2 → exec cfg env tr s1 = Some s1' →
  ∃ s2', exec cfg (with_sink env failing) tr s2 = Some s2'
         ∧ control s1' = control s2'.
Proof.
  revert s1 s2. induction tr as [|a tr IH]; intros s1 s2 Hc H; simpl in *.
  - injection H as <-. by exists s2.
  - destruct (step cfg env a s1) as [s1a|] eqn:Hs; [|done].
    destruct (step_control cfg env failing a s1 s2 s1a Hc Hs) as (s2a & -> & Hca).
    by eapply IH.
Qed.

Lemma Write_broken env w data :
  broken_sink env →
  file (Write env w data).1 = file w
  ∧ processed (Write env w data).1 = processed w
  ∧ (Write env w data).2 ≠ None.
Proof.
  intros Hb. unfold Write. specialize (Hb (writes w)).
  by destruct (write_err env (writes w)).
Qed.

Lemma writer_entry_broken env w entry :
  broken_sink env →
  file (writer_entry env w entry).1 = file w
  ∧ processed (writer_entry env w entry).1 = processed w.
Proof.
  intros Hb. unfold writer_entry, Encode.
  assert (Hsep : file (write_separator env w) = file w
                 ∧ processed (write_separator env w) = processed w).
  { unfold write_separator. destruct (firstEntry w); [done|].
    by destruct (Write_broken env w ("," +:+ nl) Hb) as (? & ? & _). }
  destruct Hsep as [Hf Hp]. rewrite <- Hf, <- Hp.
  destruct (enc_err (write_separator env w)); [done|].
  destruct (encode_bytes entry) as [b|]; [|done].
  destruct (Write_broken env (write_separator env w) b Hb) as (Hf' & Hp' & Herr).
  destruct (Write env (write_separator env w) b) as [w' [err|]]; simpl in *; done.
Qed.

(** A sink that takes no write leaves the file empty and the count of
    processed keys at zero. *)
Lemma broken_sink_writes_nothing cfg env s :
  broken_sink env → reachable cfg env s →
  file (out s) = "" ∧ processed (out s) = 0%Z.
Proof.
  intros Hb. revert s. apply reachable_ind.
  { intros s0 H%start_inv. subst. simpl. unfold writer_open.
    by destruct (Write_broken env {| file := ""; writes := 0; enc_err := None;
                                     firstEntry := true; processed := 0 |}
                   ("[" +:+ nl) Hb) as (-> & -> & _). }
  intros a s s' Hs [Hf Hp] H. step_inv H; try done.
  all: try match goal with
           | Hw : writer_entry ?env1 ?w ?e = _ |- _ =>
             destruct (writer_entry_broken env1 w e Hb) as [Hf' Hp'];
             rewrite Hw in Hf', Hp'; simpl in Hf', Hp'; by rewrite Hf', Hp'
           end.
  by destruct (Write_broken env (out s) (nl +:+ "]") Hb) as (-> & -> & _).
Qed.

(** X15. The results of the writes are dropped and a failing [Encode] is
    only logged, so the sink has no part in how the run goes: under any
    other sink the same schedule is a run too, with the same channels,
    workers and return value. In particular [Export] returns [nil] exactly
    as before on a sink that takes no write at all, leaving an empty file
    and a count of zero processed keys. *)
Theorem sink_failures_do_not_change_the_return cfg env failing tr s :
  run cfg env tr = Some s →
  ∃ s', run cfg (with_sink env failing) tr = Some s'
        ∧ control s' = control s
        ∧ returned s' = returned s
        ∧ (broken_sink (with_sink env failing) →
           file (out s') = "" ∧ processed (out s') = 0%Z).
Proof.
  unfold run, Export_start. simpl.
  destruct (create_err env) eqn:Hcreate; [done|].
  destruct (BatchSize cfg <? 0)%Z eqn:Hbatch; [done|].
  intros H.
  match type of H with exec _ _ _ ?s0 = _ =>
    match goal with |- context [exec _ (with_sink _ _) _ ?s0'] =>
      destruct (exec_control cfg env failing tr s0 s0' s eq_refl H) as (s' & He & Hc)
    end
  end.
  exists s'. split; [exact He|]. split; [by symmetry|]. split.
  - unfold control in Hc. by simplify_eq.
  - intros Hb. apply (broken_sink_writes_nothing cfg (with_sink env failing)); [done|].
    eexists _, tr. split; [|exact He].
    unfold Export_start. simpl. by rewrite Hcreate, Hbatch.
Qed.

(** The sample pipeline on one string key, and the same schedule on a
    full disk. *)
Lemma sink_failures_do_not_change_the_return_witness :
  let cfg := sample_cfg in
  let env := sample_env {| scan_keys := ["test:key"]; scan_err := None |} in
  let failing := λ _ : nat, Some (ErrNew "no space left on device") in
  let tr := [ScanSend; ScanEnd; WorkerRecv 0; WorkerHandoff 0; WorkerClosed 0;
             CloseResults; MainClosed] in
  ∃ s, run cfg env tr = Some s
       ∧ returned s = Some None
       ∧ broken_sink (with_sink env failing)
       ∧ ∃ s', run cfg (with_sink env failing) tr = Some s'
               ∧ control s' = control s
               ∧ returned s' = returned s
               ∧ (broken_sink (with_sink env failing) →
                  file (out s') = "" ∧ processed (out s') = 0%Z).
Proof.
  intros cfg env failing tr. run_to s Hrun Hr.
  split; [vm_compute in Hrun; by simplify_eq|].
  split; [intros n; discriminate|].
  exact (sink_failures_do_not_change_the_return cfg env failing tr s Hrun).
Defined.

(** ** The pipeline after a cancelled return *)

Lemma blocked_step cfg env a s s' i entry ret :
  returned s = Some ret → workers s !! i = Some (WSend entry) →
  (cap cfg ≤ length (resultsChan s))%nat →
  step cfg env a s = Some s' →
  returned s' = Some ret ∧ workers s' !! i = Some (WSend entry)
  ∧ resultsChan s' = resultsChan s.
Proof.
  intros Hret Hw Hfull H. step_inv H; try done; try congruence.
  - repeat split; try done. rewrite list_lookup_insert_ne; [done|congruence].
  - repeat split; try done. rewrite list_lookup_insert_ne; [done|congruence].
  - repeat split; try done. rewrite list_lookup_insert_ne; [done|congruence].
  - match goal with Hc : bool_decide _ = true |- _ => apply bool_decide_eq_true in Hc end.
    lia.
Qed.

(** X16. The send of a worker is not guarded by the context. A worker
    that is blocked in [resultsChan <- entry] on a full result channel when
    [Export] returns stays blocked for good: whatever happens afterwards,
    it still holds its entry, the result channel is as it was and is never
    closed. *)
Theorem blocked_worker_never_resumes cfg env tr s s' i entry ret :
  reachable cfg env s →
  returned s = Some ret → workers s !! i = Some (WSend entry) →
  (cap cfg ≤ length (resultsChan s))%nat →
  exec cfg env tr s = Some s' →
  workers s' !! i = Some (WSend entry)
  ∧ resultsChan s' = resultsChan s
  ∧ results_closed s' = false
  ∧ ret = Some (ctx_cause env).
Proof.
  intros Hr Hret Hw Hfull H.
  assert (Hcause : ret = Some (ctx_cause env)).
  { destruct ret as [err|].
    - by destruct (returned_err cfg env s err Hr Hret) as [_ ->].
    - destruct (returned_nil cfg env s Hr Hret) as [Hc _].
      pose proof (all_exited_lookup _ i _ (results_closed_exited cfg env s Hr Hc) Hw).
      done. }
  revert s Hr Hret Hw Hfull H. induction tr as [|a tr IH]; intros s Hr Hret Hw Hfull H;
    simpl in H.
  - simplify_eq. repeat split; try done.
    destruct (results_closed s') eqn:Hc; [|done].
    pose proof (all_exited_lookup _ i _ (results_closed_exited cfg env s' Hr Hc) Hw).
    done.
  - destruct (step cfg env a s) as [s1|] eqn:Hs; [|done].
    destruct (blocked_step cfg env a s s1 i entry ret Hret Hw Hfull Hs)
      as (Hret1 & Hw1 & Hq1).
    rewrite <- Hq1 in Hfull |- *.
    apply (IH s1); try done. by eapply reachable_step.
Qed.

(** A pipeline with a result channel of one place: the worker has sent
    the record of the first key and holds that of the second when the run
    is cancelled and [Export] returns. *)
Lemma blocked_worker_never_resumes_witness :
  let cfg := {| OutputFile := "redis_export.json"; Workers := 1; BatchSize := 1 |} in
  let env := sample_env {| scan_keys := ["test:key"; "test:key"]; scan_err := None |} in
  let entry := {| Key := "test:key"; Typ := "string";
                  Value := VString "test value"; TTL := 0 |} in
  ∃ s, run cfg env [ScanSend; WorkerRecv 0; WorkerSend 0; ScanSend; WorkerRecv 0;
                    Cancel; MainDone] = Some s
       ∧ returned s = Some (Some (ctx_cause env))
       ∧ workers s !! 0%nat = Some (WSend entry)
       ∧ (cap cfg ≤ length (resultsChan s))%nat
       ∧ ∃ s', exec cfg env [ScanEnd] s = Some s'
               ∧ workers s' !! 0%nat = Some (WSend entry)
               ∧ resultsChan s' = resultsChan s
               ∧ results_closed s' = false
               ∧ Some (ctx_cause env) = Some (ctx_cause env).
Proof.
  intros cfg env entry. run_to s Hrun Hr.
  assert (Hs : returned s = Some (Some (ctx_cause env))
               ∧ workers s !! 0%nat = Some (WSend entry)
               ∧ (cap cfg ≤ length (resultsChan s))%nat)
    by (vm_compute in Hrun; simplify_eq; vm_compute; repeat split; lia).
  destruct Hs as (Hret & Hw & Hfull).
  assert (He : ∃ s', exec cfg env [ScanEnd] s = Some s')
    by (vm_compute in Hrun; simplify_eq; vm_compute; eauto).
  destruct He as [s' He].
  split; [exact Hret|]. split; [exact Hw|]. split; [exact Hfull|].
  exists s'. split; [exact He|].
  exact (blocked_worker_never_resumes cfg env _ s s' 0%nat entry _ Hr Hret Hw Hfull He).
Defined.
